(** * CollisionSolver: narrow-phase SAT overlap test and impulse resolver

    Shallow embedding of [data_oriented/dod/dod/CollisionSolver.cpp].

    Numbers.  The program computes on C++ [float].  The code is embedded
    twice.  First with every [float] read as an exact rational ([Q]) and
    every float operation as the exact operation on rationals, without
    rounding, infinities or NaN: what is proved of these definitions is
    proved of the code over exact arithmetic, and says so.
    [numeric_limits<float>::max()] and [lowest()] keep their numeric values.
    Two rationals are compared with [==] ([Qeq]); an equation written with
    [=] holds syntactically, on the very fractions the code builds.  Then,
    in [Generic], with the arithmetic left open; its reading on the
    rationals is proved to be the first embedding, and its reading in IEEE
    754 binary32 is what the program computes on [float], overflow and NaN
    included.

    State.  [solveCollision] mutates four [Vec2&] out-parameters; the
    embedding passes them in and returns them as one [Bodies] record. *)

From Stdlib Require Import Arith QArith Qabs Qminmax List Bool Lia Lqa.
From Stdlib Require Import Permutation.
From Stdlib Require SpecFloat.
Import ListNotations.

Local Open Scope Q_scope.

(** ** Comparisons of the code, as booleans *)

Definition Qltb (a b : Q) : bool := negb (Qle_bool b a).
Definition Qgtb (a b : Q) : bool := Qltb b a.
Definition Qleb (a b : Q) : bool := Qle_bool a b.
Definition Qgeb (a b : Q) : bool := Qle_bool b a.

(** ** <limits> *)

(** [numeric_limits<float>::max()], that is (2^24 - 1) * 2^104. *)
Definition FLT_MAX : Q := inject_Z ((2 ^ 24 - 1) * 2 ^ 104).
(** [numeric_limits<float>::lowest()]. *)
Definition FLT_LOWEST : Q := - FLT_MAX.

(** ** namespace math *)

Module math.

(** Modelled from the spec: [Vec2], declared in a header that is not part of
    the sources at hand; "a 2D float pair with dot product, subtraction,
    scalar scaling, and a perpendicular (normal) operation".  The
    perpendicular, [Vec2::getNormal], and the default constructor are not
    modelled: the solver takes them as parameters. *)
Record Vec2 : Type := mkVec2 { x : Q; y : Q }.

(** Modelled from the spec: [Bounds], "a pair of corner points (top-left,
    bottom-right)". *)
Record Bounds : Type := mkBounds { topLeft : Vec2; bottomRight : Vec2 }.

(** Modelled from the spec: [a.dot(b)], the dot product. *)
Definition dot (a b : Vec2) : Q := x a * x b + y a * y b.
(** Modelled from the spec: [a + b] and [a += b], by components. *)
Definition vadd (a b : Vec2) : Vec2 := mkVec2 (x a + x b) (y a + y b).
(** Modelled from the spec: [a - b] and [a -= b], by components. *)
Definition vsub (a b : Vec2) : Vec2 := mkVec2 (x a - x b) (y a - y b).
(** Modelled from the spec: [a * s], scalar scaling. *)
Definition vscale (a : Vec2) (s : Q) : Vec2 := mkVec2 (x a * s) (y a * s).

(** Numeric equality of vectors. *)
Definition veq (a b : Vec2) : Prop := x a == x b /\ y a == y b.

End math.
Import math.

Declare Scope vec_scope.
Delimit Scope vec_scope with vec.
Bind Scope vec_scope with Vec2.
Infix "+v" := vadd (at level 50, left associativity) : vec_scope.
Infix "-v" := vsub (at level 50, left associativity) : vec_scope.
Infix "*v" := vscale (at level 40, left associativity) : vec_scope.
Infix "=v" := veq (at level 70, no associativity) : vec_scope.
Local Open Scope vec_scope.

(** ** The anonymous namespace of CollisionSolver.cpp *)

Record Projection : Type := mkProjection { min : Q; max : Q }.

Record Overlap : Type := mkOverlap { depth : Q; direction : Vec2 }.

Definition areBothStatic (massInverseA massInverseB : Q) : bool :=
  Qeq_bool massInverseA 0 && Qeq_bool massInverseB 0.

Definition boundsOverlap (boundsA boundsB : Bounds) : bool :=
  if Qleb (x (bottomRight boundsA)) (x (topLeft boundsB)) then false
  else if Qgeb (x (topLeft boundsA)) (x (bottomRight boundsB)) then false
  else if Qleb (y (bottomRight boundsA)) (y (topLeft boundsB)) then false
  else if Qgeb (y (topLeft boundsA)) (y (bottomRight boundsB)) then false
  else true.

(** One turn of the loop of [project]. *)
Definition project_step (n : Vec2) (acc : Projection) (v : Vec2) : Projection :=
  let proj := dot n v in
  let min' := if Qltb proj (min acc) then proj else min acc in
  let max' := if Qgtb proj (max acc) then proj else max acc in
  mkProjection min' max'.

Definition project (vertices : list Vec2) (n : Vec2) : Projection :=
  fold_left (project_step n) vertices (mkProjection FLT_MAX FLT_LOWEST).

(** [std::min(a, b)]: [b] when [b < a], else [a]. *)
Definition std_min (a b : Q) : Q := if Qltb b a then b else a.

Section Solver.

(** [Vec2::getNormal] and the value of a default-constructed [Vec2]. *)
Variable getNormal : Vec2 -> Vec2.
Variable vec2_default : Vec2.

(** [projB] after [projB.min += projD; projB.max += projD]. *)
Definition shifted (p : Projection) (projD : Q) : Projection :=
  mkProjection (min p + projD) (max p + projD).

(** The loop of [checkOverlap]: [vertex1] is [verticesA[v1]], [rest] holds
    [verticesA[v2]] and what follows; the step [v1 = v2, ++v2] passes
    [vertex2] on as the next [vertex1]. *)
Fixpoint checkOverlap_loop (d : Vec2) (verticesA verticesB : list Vec2)
    (vertex1 : Vec2) (rest : list Vec2) (minPenetration : Q) (normal : Vec2)
    : option Overlap :=
  match rest with
  | [] => Some (mkOverlap minPenetration normal)
  | vertex2 :: rest' =>
      let edge := vertex2 -v vertex1 in
      let n := getNormal edge in
      let projA := project verticesA n in
      let projB := shifted (project verticesB n) (dot n d) in
      if Qgeb (min projB) (max projA) || Qleb (max projB) (min projA)
      then None
      else
        let p := Qabs (max projA - min projB) in
        if Qltb p minPenetration
        then checkOverlap_loop d verticesA verticesB vertex2 rest' p n
        else checkOverlap_loop d verticesA verticesB vertex2 rest'
               minPenetration normal
  end.

(** The loop starts with [v1 = verticesA.size() - 1] and [v2 = 0].  For an
    empty A its body is never entered and [verticesA[v1]] is never read. *)
Definition checkOverlap (posA posB : Vec2) (verticesA verticesB : list Vec2)
    : option Overlap :=
  let d := posB -v posA in
  checkOverlap_loop d verticesA verticesB
    (last verticesA vec2_default) verticesA FLT_MAX vec2_default.

(** ** CollisionSolver::solveCollision *)

(** The four [Vec2&] parameters. *)
Record Bodies : Type := mkBodies {
  velocityA : Vec2;
  velocityB : Vec2;
  overlapAccumulatorA : Vec2;
  overlapAccumulatorB : Vec2
}.

Definition solveCollision (massInverseA massInverseB : Q)
    (boundsA boundsB : Bounds) (posA posB : Vec2)
    (verticesA verticesB : list Vec2) (s : Bodies) : Bodies :=
  if areBothStatic massInverseA massInverseB
     || negb (boundsOverlap boundsA boundsB)
  then s
  else
    match checkOverlap posA posB verticesA verticesB with
    | None => s
    | Some overlap1 =>
        match checkOverlap posB posA verticesB verticesA with
        | None => s
        | Some overlap2 =>
            let d := std_min (depth overlap1) (depth overlap2) in
            let n := if Qltb (depth overlap1) (depth overlap2)
                     then direction overlap1 else direction overlap2 in
            let d1 := d * massInverseA / (massInverseA + massInverseB) in
            let d2 := d - d1 in
            let flip := Qgeb (depth overlap1) (depth overlap2) in
            let d1 := if flip then d1 * -1 else d1 in
            let d2 := if flip then d2 * -1 else d2 in
            let vRel := velocityA s -v velocityB s in
            let j := - dot n vRel * 2 / (massInverseA + massInverseB) in
            mkBodies
              (velocityA s +v n *v (j * massInverseA))
              (velocityB s -v n *v (j * massInverseB))
              (overlapAccumulatorA s -v n *v d1)
              (overlapAccumulatorB s +v n *v d2)
        end
    end.

End Solver.

(** ** The words of the specification, for the directional SAT probe *)

Section ProbeSpec.

Variable getNormal : Vec2 -> Vec2.
Variable vec2_default : Vec2.
Variables posA posB : Vec2.
Variables verticesA verticesB : list Vec2.

(** Index of the vertex an edge starts from: the edge that ends in vertex
    [i] starts in vertex [i - 1], the one that ends in vertex [0] starts in
    the last vertex. *)
Definition prevIndex (size i : nat) : nat :=
  if Nat.eqb i 0 then (size - 1)%nat else (i - 1)%nat.

(** The normal of the edge of A that ends in vertex [i]. *)
Definition edgeNormal (i : nat) : Vec2 :=
  getNormal (nth i verticesA vec2_default
             -v nth (prevIndex (length verticesA) i) verticesA vec2_default).

(** The candidate axes: one per edge of A, in the order of the vertices. *)
Definition edgeNormals : list Vec2 :=
  map edgeNormal (seq 0 (length verticesA)).

(** B's interval on axis [n], shifted by [n . (posB - posA)]. *)
Definition shiftedB (n : Vec2) : Projection :=
  shifted (project verticesB n) (dot n (posB -v posA)).

(** [n] is a separating axis. *)
Definition separating (n : Vec2) : Prop :=
  max (project verticesA n) <= min (shiftedB n)
  \/ max (shiftedB n) <= min (project verticesA n).

(** Penetration depth on axis [n]: |projA.max - projB.min|. *)
Definition penetration (n : Vec2) : Q :=
  Qabs (max (project verticesA n) - min (shiftedB n)).

(** [o] is the minimum-penetration answer over A's edge normals. *)
Definition minimal_penetration (o : Overlap) : Prop :=
  Forall (fun n => depth o <= penetration n) edgeNormals
  /\ Exists (fun n => direction o = n /\ depth o == penetration n) edgeNormals.

(** The axes the loop of [checkOverlap] visits from [vertex1] on. *)
Fixpoint walkNormals (vertex1 : Vec2) (rest : list Vec2) : list Vec2 :=
  match rest with
  | [] => []
  | vertex2 :: rest' =>
      getNormal (vertex2 -v vertex1) :: walkNormals vertex2 rest'
  end.

(** [o] answers for the axes [ns] when the loop entered them with the
    running minimum [m] and its axis [nrm]: either nothing beat [m], or [o]
    is the first axis of least penetration. *)
Definition answers (ns : list Vec2) (m : Q) (nrm : Vec2) (o : Overlap)
    : Prop :=
  (depth o = m /\ direction o = nrm /\ Forall (fun n => m <= penetration n) ns)
  \/ (exists l1 n l2,
        ns = l1 ++ n :: l2 /\ direction o = n /\ depth o = penetration n
        /\ penetration n < m
        /\ Forall (fun n' => penetration n < penetration n') l1
        /\ Forall (fun n' => penetration n <= penetration n') l2).

End ProbeSpec.

(** ** Concrete geometry used by the examples *)

(** Two readings of "perpendicular": a quarter turn either way, not
    normalised.  On an edge of length 1 they agree with a unit normal. *)
Definition perp_cw (e : Vec2) : Vec2 := mkVec2 (y e) (- x e).
Definition perp_ccw (e : Vec2) : Vec2 := mkVec2 (- y e) (x e).

Definition vzero : Vec2 := mkVec2 0 0.

(** The axis-aligned square of half side [h] around its own origin. *)
Definition square (h : Q) : list Vec2 :=
  [mkVec2 (- h) (- h); mkVec2 h (- h); mkVec2 h h; mkVec2 (- h) h].

(** The bounds of [square h] placed at [pos]. *)
Definition squareBounds (pos : Vec2) (h : Q) : Bounds :=
  mkBounds (mkVec2 (x pos - h) (y pos - h)) (mkVec2 (x pos + h) (y pos + h)).

(** ** The words of the specification, for the pair resolver *)

(** Lines 122-123: the resolved depth and the selected collision normal. *)
Definition collisionDepth (overlap1 overlap2 : Overlap) : Q :=
  std_min (depth overlap1) (depth overlap2).
Definition collisionNormal (overlap1 overlap2 : Overlap) : Vec2 :=
  if Qltb (depth overlap1) (depth overlap2)
  then direction overlap1 else direction overlap2.


Definition vopp (a : Vec2) : Vec2 := mkVec2 (- x a) (- y a).

(** Numeric equality of the mutable state. *)
Definition bodies_eq (s t : Bodies) : Prop :=
  velocityA s =v velocityA t /\ velocityB s =v velocityB t
  /\ overlapAccumulatorA s =v overlapAccumulatorA t
  /\ overlapAccumulatorB s =v overlapAccumulatorB t.

(** The same call with the two bodies' argument lists exchanged sees the
    mutable state exchanged too. *)
Definition swapBodies (s : Bodies) : Bodies :=
  mkBodies (velocityB s) (velocityA s)
           (overlapAccumulatorB s) (overlapAccumulatorA s).



Section ResolverSpec.

Variable getNormal : Vec2 -> Vec2.
Variable vec2_default : Vec2.
Variables massInverseA massInverseB : Q.
Variables boundsA boundsB : Bounds.
Variables posA posB : Vec2.
Variables verticesA verticesB : list Vec2.

(** What one call contributes to each accumulator: the accumulators it
    leaves when it starts from zero accumulators and zero velocities. *)
Definition correctionA : Vec2 :=
  overlapAccumulatorA
    (solveCollision getNormal vec2_default massInverseA massInverseB
       boundsA boundsB posA posB verticesA verticesB
       (mkBodies vzero vzero vzero vzero)).
Definition correctionB : Vec2 :=
  overlapAccumulatorB
    (solveCollision getNormal vec2_default massInverseA massInverseB
       boundsA boundsB posA posB verticesA verticesB
       (mkBodies vzero vzero vzero vzero)).

Variable s : Bodies.

(** The call, and the call with the argument lists swapped. *)
Definition resolved : Bodies :=
  solveCollision getNormal vec2_default massInverseA massInverseB
    boundsA boundsB posA posB verticesA verticesB s.
Definition resolvedSwapped : Bodies :=
  solveCollision getNormal vec2_default massInverseB massInverseA
    boundsB boundsA posB posA verticesB verticesA (swapBodies s).

(** "Equal and opposite to those of the unswapped call", read argument by
    argument: what the swapped call adds to its first (second) body is the
    opposite of what the unswapped call adds to its first (second) body. *)
Definition swap_opposite_by_position : Prop :=
  velocityA resolvedSwapped -v velocityA (swapBodies s)
    =v vopp (velocityA resolved -v velocityA s)
  /\ velocityB resolvedSwapped -v velocityB (swapBodies s)
    =v vopp (velocityB resolved -v velocityB s)
  /\ overlapAccumulatorA resolvedSwapped -v overlapAccumulatorA (swapBodies s)
    =v vopp (overlapAccumulatorA resolved -v overlapAccumulatorA s)
  /\ overlapAccumulatorB resolvedSwapped -v overlapAccumulatorB (swapBodies s)
    =v vopp (overlapAccumulatorB resolved -v overlapAccumulatorB s).

(** The same, read body by body: what the swapped call adds to body A
    (its second argument) is the opposite of what the unswapped call adds
    to body A, and likewise for body B. *)
Definition swap_opposite_by_body : Prop :=
  velocityB resolvedSwapped -v velocityB (swapBodies s)
    =v vopp (velocityA resolved -v velocityA s)
  /\ velocityA resolvedSwapped -v velocityA (swapBodies s)
    =v vopp (velocityB resolved -v velocityB s)
  /\ overlapAccumulatorB resolvedSwapped -v overlapAccumulatorB (swapBodies s)
    =v vopp (overlapAccumulatorA resolved -v overlapAccumulatorA s)
  /\ overlapAccumulatorA resolvedSwapped -v overlapAccumulatorA (swapBodies s)
    =v vopp (overlapAccumulatorB resolved -v overlapAccumulatorB s).

End ResolverSpec.

(** ** The scenario of the two unit squares *)

Section UnitSquares.

Variable getNormal : Vec2 -> Vec2.
Variable vec2_default : Vec2.

Definition unitSquare : list Vec2 := square (1 # 2).
Definition centreA : Vec2 := mkVec2 0 0.
Definition centreB : Vec2 := mkVec2 (1 # 2) 0.

(** Probe A->B and probe B->A on the two squares. *)
Definition squaresProbeAB : option Overlap :=
  checkOverlap getNormal vec2_default centreA centreB unitSquare unitSquare.
Definition squaresProbeBA : option Overlap :=
  checkOverlap getNormal vec2_default centreB centreA unitSquare unitSquare.

(** The call of the scenario, from state [s], with inverse masses
    [massInverseA], [massInverseB]. *)
Definition squaresResolved (massInverseA massInverseB : Q) (s : Bodies)
    : Bodies :=
  solveCollision getNormal vec2_default massInverseA massInverseB
    (squareBounds centreA (1 # 2)) (squareBounds centreB (1 # 2))
    centreA centreB unitSquare unitSquare s.

(** The expected outcome, with the magnitude of the accumulator split left
    open: a collision of depth 1/2 with its normal along the x-axis,
    corrections of magnitude [magnitude] in opposite x-directions, both
    velocities unchanged. *)
Definition squares_outcome (magnitude : Q) : Prop :=
  let s := mkBodies vzero vzero vzero vzero in
  let s' := squaresResolved 1 1 s in
  exists overlap1 overlap2,
    squaresProbeAB = Some overlap1
    /\ squaresProbeBA = Some overlap2
    /\ collisionDepth overlap1 overlap2 == 1 # 2
    /\ y (collisionNormal overlap1 overlap2) == 0
    /\ ~ x (collisionNormal overlap1 overlap2) == 0
    /\ ((overlapAccumulatorA s' =v mkVec2 (- magnitude) 0
         /\ overlapAccumulatorB s' =v mkVec2 magnitude 0)
        \/ (overlapAccumulatorA s' =v mkVec2 magnitude 0
            /\ overlapAccumulatorB s' =v mkVec2 (- magnitude) 0))
    /\ velocityA s' =v velocityA s
    /\ velocityB s' =v velocityB s.

End UnitSquares.

(** Body A moving right at speed 1 towards body B at rest; accumulators at
    zero. *)
Definition approaching : Bodies :=
  mkBodies (mkVec2 1 0) vzero vzero vzero.

(** What the two probes answer on the two unit squares, as the fractions
    the code builds: depth 1/2 on the axis (1, 0) for probe A->B, depth 1/2
    on the axis (-1, 0) for probe B->A. *)
Definition squaresOverlapAB : Overlap :=
  mkOverlap (65536 # 131072) (mkVec2 (4 # 4) (0 # 4)).
Definition squaresOverlapBA : Overlap :=
  mkOverlap (65536 # 131072) (mkVec2 (-4 # 4) (0 # 4)).

(** ** Further vocabulary: intervals, translation, numeric equality *)

(** [z] is the least of the bound [m] and the numbers [ds]. *)
Definition least_of (m : Q) (ds : list Q) (z : Q) : Prop :=
  z <= m /\ Forall (fun d => z <= d) ds
  /\ (z == m \/ Exists (fun d => z == d) ds).

(** [z] is the greatest of the bound [m] and the numbers [ds]. *)
Definition greatest_of (m : Q) (ds : list Q) (z : Q) : Prop :=
  m <= z /\ Forall (fun d => d <= z) ds
  /\ (z == m \/ Exists (fun d => z == d) ds).

(** The vertex set moved by [t]. *)
Definition translate (t : Vec2) (vertices : list Vec2) : list Vec2 :=
  map (fun v => v +v t) vertices.

(** Numeric equality of two intervals. *)
Definition projection_eq (p q : Projection) : Prop :=
  min p == min q /\ max p == max q.

(** Numeric equality of two answers of a probe: both "no overlap", or the
    same normal and numerically the same depth. *)
Definition overlap_eq (a b : option Overlap) : Prop :=
  match a, b with
  | None, None => True
  | Some o, Some o' => depth o == depth o' /\ direction o = direction o'
  | _, _ => False
  end.

(** ** The same code over any arithmetic

    The definitions above read [float] as exact rationals.  Rounding,
    overflow to an infinity and NaN change what several lines compute, so
    the code is written out once more with its arithmetic left open: every
    operation and every comparison the source applies to a [float] is a field
    of [FloatOps].  [exact] reads them on the rationals, and gives back the
    definitions above; [binary32] reads them as IEEE 754 single precision,
    round to nearest even, which is C++ [float]. *)

Module Generic.

Record FloatOps (F : Type) : Type := mkFloatOps {
  fzero : F;                (* the literal 0 *)
  ftwo : F;                 (* the literal 2 *)
  fminus_one : F;           (* the literal -1 *)
  fmax : F;                 (* numeric_limits<float>::max() *)
  flowest : F;              (* numeric_limits<float>::lowest() *)
  fadd : F -> F -> F;
  fsub : F -> F -> F;
  fmul : F -> F -> F;
  fdiv : F -> F -> F;
  fneg : F -> F;            (* unary minus *)
  fabs : F -> F;
  feqb : F -> F -> bool;    (* a == b *)
  fltb : F -> F -> bool;    (* a < b; b > a *)
  fleb : F -> F -> bool     (* a <= b; b >= a *)
}.

Arguments fzero {F}.
Arguments ftwo {F}.
Arguments fminus_one {F}.
Arguments fmax {F}.
Arguments flowest {F}.
Arguments fadd {F}.
Arguments fsub {F}.
Arguments fmul {F}.
Arguments fdiv {F}.
Arguments fneg {F}.
Arguments fabs {F}.
Arguments feqb {F}.
Arguments fltb {F}.
Arguments fleb {F}.

Section Code.

Context {F : Type} (O : FloatOps F).

(** Modelled from the spec: [Vec2], a pair of floats with dot product,
    sum, difference and scalar scaling; [Bounds], two corner points. *)
Record Vec2 : Type := mkVec2 { x : F; y : F }.
Record Bounds : Type := mkBounds { topLeft : Vec2; bottomRight : Vec2 }.

Definition dot (a b : Vec2) : F :=
  fadd O (fmul O (x a) (x b)) (fmul O (y a) (y b)).
Definition vadd (a b : Vec2) : Vec2 :=
  mkVec2 (fadd O (x a) (x b)) (fadd O (y a) (y b)).
Definition vsub (a b : Vec2) : Vec2 :=
  mkVec2 (fsub O (x a) (x b)) (fsub O (y a) (y b)).
Definition vscale (a : Vec2) (s : F) : Vec2 :=
  mkVec2 (fmul O (x a) s) (fmul O (y a) s).

(** The two quarter turns, for where an example needs a [getNormal]. *)
Definition perp_cw (e : Vec2) : Vec2 := mkVec2 (y e) (fneg O (x e)).
Definition perp_ccw (e : Vec2) : Vec2 := mkVec2 (fneg O (y e)) (x e).

Record Projection : Type := mkProjection { min : F; max : F }.
Record Overlap : Type := mkOverlap { depth : F; direction : Vec2 }.

Definition areBothStatic (massInverseA massInverseB : F) : bool :=
  feqb O massInverseA (fzero O) && feqb O massInverseB (fzero O).

Definition boundsOverlap (boundsA boundsB : Bounds) : bool :=
  if fleb O (x (bottomRight boundsA)) (x (topLeft boundsB)) then false
  else if fleb O (x (bottomRight boundsB)) (x (topLeft boundsA)) then false
  else if fleb O (y (bottomRight boundsA)) (y (topLeft boundsB)) then false
  else if fleb O (y (bottomRight boundsB)) (y (topLeft boundsA)) then false
  else true.

Definition project_step (n : Vec2) (acc : Projection) (v : Vec2)
    : Projection :=
  let proj := dot n v in
  let min' := if fltb O proj (min acc) then proj else min acc in
  let max' := if fltb O (max acc) proj then proj else max acc in
  mkProjection min' max'.

Definition project (vertices : list Vec2) (n : Vec2) : Projection :=
  fold_left (project_step n) vertices (mkProjection (fmax O) (flowest O)).

Definition std_min (a b : F) : F := if fltb O b a then b else a.

Variable getNormal : Vec2 -> Vec2.
Variable vec2_default : Vec2.

Fixpoint checkOverlap_loop (d : Vec2) (verticesA verticesB : list Vec2)
    (vertex1 : Vec2) (rest : list Vec2) (minPenetration : F) (normal : Vec2)
    : option Overlap :=
  match rest with
  | [] => Some (mkOverlap minPenetration normal)
  | vertex2 :: rest' =>
      let edge := vsub vertex2 vertex1 in
      let n := getNormal edge in
      let projA := project verticesA n in
      let projB := project verticesB n in
      let projD := dot n d in
      let projB := mkProjection (fadd O (min projB) projD)
                                (fadd O (max projB) projD) in
      if fleb O (max projA) (min projB) || fleb O (max projB) (min projA)
      then None
      else
        let p := fabs O (fsub O (max projA) (min projB)) in
        if fltb O p minPenetration
        then checkOverlap_loop d verticesA verticesB vertex2 rest' p n
        else checkOverlap_loop d verticesA verticesB vertex2 rest'
               minPenetration normal
  end.

Definition checkOverlap (posA posB : Vec2) (verticesA verticesB : list Vec2)
    : option Overlap :=
  let d := vsub posB posA in
  checkOverlap_loop d verticesA verticesB
    (last verticesA vec2_default) verticesA (fmax O) vec2_default.

Record Bodies : Type := mkBodies {
  velocityA : Vec2;
  velocityB : Vec2;
  overlapAccumulatorA : Vec2;
  overlapAccumulatorB : Vec2
}.

Definition solveCollision (massInverseA massInverseB : F)
    (boundsA boundsB : Bounds) (posA posB : Vec2)
    (verticesA verticesB : list Vec2) (s : Bodies) : Bodies :=
  if areBothStatic massInverseA massInverseB
     || negb (boundsOverlap boundsA boundsB)
  then s
  else
    match checkOverlap posA posB verticesA verticesB with
    | None => s
    | Some overlap1 =>
        match checkOverlap posB posA verticesB verticesA with
        | None => s
        | Some overlap2 =>
            let d := std_min (depth overlap1) (depth overlap2) in
            let n := if fltb O (depth overlap1) (depth overlap2)
                     then direction overlap1 else direction overlap2 in
            let d1 := fdiv O (fmul O d massInverseA)
                        (fadd O massInverseA massInverseB) in
            let d2 := fsub O d d1 in
            let flip := fleb O (depth overlap2) (depth overlap1) in
            let d1 := if flip then fmul O d1 (fminus_one O) else d1 in
            let d2 := if flip then fmul O d2 (fminus_one O) else d2 in
            let vRel := vsub (velocityA s) (velocityB s) in
            let j := fdiv O (fmul O (fneg O (dot n vRel)) (ftwo O))
                       (fadd O massInverseA massInverseB) in
            mkBodies
              (vadd (velocityA s) (vscale n (fmul O j massInverseA)))
              (vsub (velocityB s) (vscale n (fmul O j massInverseB)))
              (vsub (overlapAccumulatorA s) (vscale n d1))
              (vadd (overlapAccumulatorB s) (vscale n d2))
        end
    end.

(** Numeric equality of two vectors, by the code's own [==]. *)
Definition veqb (a b : Vec2) : bool :=
  feqb O (x a) (x b) && feqb O (y a) (y b).

End Code.

End Generic.

(** The exact reading. *)
Definition exact : Generic.FloatOps Q :=
  Generic.mkFloatOps Q 0 2 (-1) FLT_MAX FLT_LOWEST
    Qplus Qminus Qmult Qdiv Qopp Qabs Qeq_bool Qltb Qle_bool.

(** IEEE 754 binary32: 24 bits of precision, exponents up to 128. *)
Definition b32 (m e : Z) : SpecFloat.spec_float :=
  SpecFloat.binary_normalize 24 128 m e false.

Definition binary32 : Generic.FloatOps SpecFloat.spec_float :=
  Generic.mkFloatOps SpecFloat.spec_float
    (SpecFloat.S754_zero false) (b32 2 0) (b32 (-1) 0)
    (SpecFloat.SFmax_float 24 128)
    (SpecFloat.SFopp (SpecFloat.SFmax_float 24 128))
    (SpecFloat.SFadd 24 128) (SpecFloat.SFsub 24 128)
    (SpecFloat.SFmul 24 128) (SpecFloat.SFdiv 24 128)
    SpecFloat.SFopp SpecFloat.SFabs
    SpecFloat.SFeqb SpecFloat.SFltb SpecFloat.SFleb.

(** From the exact records to the generic ones at [Q], and back. *)
Definition to_vec (v : Vec2) : Generic.Vec2 (F := Q) :=
  Generic.mkVec2 (x v) (y v).
Definition of_vec (v : Generic.Vec2 (F := Q)) : Vec2 :=
  mkVec2 (Generic.x v) (Generic.y v).
Definition to_bounds (b : Bounds) : Generic.Bounds (F := Q) :=
  Generic.mkBounds (to_vec (topLeft b)) (to_vec (bottomRight b)).
Definition to_projection (p : Projection) : Generic.Projection (F := Q) :=
  Generic.mkProjection (min p) (max p).
Definition to_overlap (o : Overlap) : Generic.Overlap (F := Q) :=
  Generic.mkOverlap (depth o) (to_vec (direction o)).
Definition to_bodies (s : Bodies) : Generic.Bodies (F := Q) :=
  Generic.mkBodies (to_vec (velocityA s)) (to_vec (velocityB s))
    (to_vec (overlapAccumulatorA s)) (to_vec (overlapAccumulatorB s)).

(** ** What the claims say of the float code, and inputs in binary32 *)

Section AsStated.

Context {F : Type} (O : Generic.FloatOps F).
Variable getNormal : Generic.Vec2 (F := F) -> Generic.Vec2 (F := F).
Variable vec2_default : Generic.Vec2 (F := F).
Variables massInverseA massInverseB : F.
Variables boundsA boundsB : Generic.Bounds (F := F).
Variables posA posB : Generic.Vec2 (F := F).
Variables verticesA verticesB : list (Generic.Vec2 (F := F)).

(** One call on the pair. *)
Definition call (s : Generic.Bodies) : Generic.Bodies :=
  Generic.solveCollision O getNormal vec2_default massInverseA massInverseB
    boundsA boundsB posA posB verticesA verticesB s.

Definition zero_vec : Generic.Vec2 (F := F) :=
  Generic.mkVec2 (Generic.fzero O) (Generic.fzero O).



(** C7 as stated: after two calls in a row, body B's accumulator is its
    initial value plus the sum of the two calls' contributions, a call's
    contribution being what it leaves in an accumulator that starts at
    zero. *)
Definition two_calls_add_up (s : Generic.Bodies) : Prop :=
  let contribution :=
    Generic.overlapAccumulatorB
      (call (Generic.mkBodies (Generic.velocityA s) (Generic.velocityB s)
               zero_vec zero_vec)) in
  Generic.veqb O (Generic.overlapAccumulatorB (call (call s)))
    (Generic.vadd O (Generic.overlapAccumulatorB s)
       (Generic.vadd O contribution contribution))
  = true.


End AsStated.

(** A vector of two binary32 numbers. *)
Definition fvec (a b : SpecFloat.spec_float)
    : Generic.Vec2 (F := SpecFloat.spec_float) :=
  Generic.mkVec2 a b.

Definition f0 : SpecFloat.spec_float := SpecFloat.S754_zero false.

(** The axis-aligned square of half side [h], and its bounds at
    ([cx], [cy]), in binary32. *)
Definition fsquare (h : SpecFloat.spec_float)
    : list (Generic.Vec2 (F := SpecFloat.spec_float)) :=
  [fvec (SpecFloat.SFopp h) (SpecFloat.SFopp h); fvec h (SpecFloat.SFopp h);
   fvec h h; fvec (SpecFloat.SFopp h) h].
Definition fsquareBounds (cx cy h : SpecFloat.spec_float)
    : Generic.Bounds (F := SpecFloat.spec_float) :=
  Generic.mkBounds
    (fvec (SpecFloat.SFsub 24 128 cx h) (SpecFloat.SFsub 24 128 cy h))
    (fvec (SpecFloat.SFadd 24 128 cx h) (SpecFloat.SFadd 24 128 cy h)).

(** The call on the two unit squares, A at (0, 0) and B at (0.5, 0), in
    binary32, with a zero default vector. *)
Definition fsquaresCall
    (getNormal : Generic.Vec2 (F := SpecFloat.spec_float)
                 -> Generic.Vec2 (F := SpecFloat.spec_float))
    (massInverseA massInverseB : SpecFloat.spec_float)
    : Generic.Bodies -> Generic.Bodies :=
  call binary32 getNormal (fvec f0 f0) massInverseA massInverseB
    (fsquareBounds f0 f0 (b32 1 (-1)))
    (fsquareBounds (b32 1 (-1)) f0 (b32 1 (-1)))
    (fvec f0 f0) (fvec (b32 1 (-1)) f0)
    (fsquare (b32 1 (-1))) (fsquare (b32 1 (-1))).

(** Body B's accumulator at 2^23 = 8388608, everything else zero. *)
Definition accumulatedB : Generic.Bodies (F := SpecFloat.spec_float) :=
  Generic.mkBodies (fvec f0 f0) (fvec f0 f0) (fvec f0 f0)
    (fvec (b32 1 23) f0).


(** Everything at rest, accumulators at zero. *)
Definition frest : Generic.Bodies (F := SpecFloat.spec_float) :=
  Generic.mkBodies (fvec f0 f0) (fvec f0 f0) (fvec f0 f0) (fvec f0 f0).

(** The call on two coincident squares of half side 2^127, in binary32, with
    a zero default vector. *)
Definition fhugeCall
    (getNormal : Generic.Vec2 (F := SpecFloat.spec_float)
                 -> Generic.Vec2 (F := SpecFloat.spec_float))
    (massInverseA massInverseB : SpecFloat.spec_float)
    : Generic.Bodies -> Generic.Bodies :=
  call binary32 getNormal (fvec f0 f0) massInverseA massInverseB
    (fsquareBounds f0 f0 (b32 1 127)) (fsquareBounds f0 f0 (b32 1 127))
    (fvec f0 f0) (fvec f0 f0)
    (fsquare (b32 1 127)) (fsquare (b32 1 127)).

(** ** C5 as stated, over exact arithmetic *)


(** * Properties *)

(** ** Comparisons *)

Lemma Qltb_lt (a b : Q) : Qltb a b = true <-> a < b.
Proof.
  unfold Qltb. rewrite negb_true_iff, <- not_true_iff_false, Qle_bool_iff.
  split; [apply Qnot_le_lt | apply Qlt_not_le].
Qed.

Lemma Qltb_ge (a b : Q) : Qltb a b = false <-> b <= a.
Proof.
  unfold Qltb. rewrite negb_false_iff. apply Qle_bool_iff.
Qed.

Lemma Qleb_le (a b : Q) : Qleb a b = true <-> a <= b.
Proof. apply Qle_bool_iff. Qed.

Lemma Qleb_gt (a b : Q) : Qleb a b = false <-> b < a.
Proof.
  unfold Qleb. rewrite <- not_true_iff_false, Qle_bool_iff.
  split; [apply Qnot_le_lt | apply Qlt_not_le].
Qed.

Lemma Qgeb_ge (a b : Q) : Qgeb a b = true <-> b <= a.
Proof. apply Qle_bool_iff. Qed.

Lemma Qgeb_lt (a b : Q) : Qgeb a b = false <-> a < b.
Proof. unfold Qgeb. apply (Qleb_gt b a). Qed.


(** ** boundsOverlap *)

Lemma boundsOverlap_iff (boundsA boundsB : Bounds) :
  boundsOverlap boundsA boundsB = true <->
    x (topLeft boundsB) < x (bottomRight boundsA)
    /\ x (topLeft boundsA) < x (bottomRight boundsB)
    /\ y (topLeft boundsB) < y (bottomRight boundsA)
    /\ y (topLeft boundsA) < y (bottomRight boundsB).
Proof.
  unfold boundsOverlap.
  destruct (Qleb (x (bottomRight boundsA)) (x (topLeft boundsB))) eqn:E1;
    [apply Qleb_le in E1 | apply Qleb_gt in E1].
  { split; [discriminate | intros (H & _); lra]. }
  destruct (Qgeb (x (topLeft boundsA)) (x (bottomRight boundsB))) eqn:E2;
    [apply Qgeb_ge in E2 | apply Qgeb_lt in E2].
  { split; [discriminate | intros (_ & H & _); lra]. }
  destruct (Qleb (y (bottomRight boundsA)) (y (topLeft boundsB))) eqn:E3;
    [apply Qleb_le in E3 | apply Qleb_gt in E3].
  { split; [discriminate | intros (_ & _ & H & _); lra]. }
  destruct (Qgeb (y (topLeft boundsA)) (y (bottomRight boundsB))) eqn:E4;
    [apply Qgeb_ge in E4 | apply Qgeb_lt in E4].
  { split; [discriminate | intros (_ & _ & _ & H); lra]. }
  tauto.
Qed.

(** C9.  [boundsOverlap] answers true exactly when the four strict
    inequalities hold, one per side; two boxes that share a coordinate on any
    of the four sides are reported as not overlapping.  The function is a
    total function of its two arguments: it has no state to change. *)
Theorem boundsOverlap_strict (boundsA boundsB : Bounds) :
  (boundsOverlap boundsA boundsB = true <->
     x (topLeft boundsB) < x (bottomRight boundsA)
     /\ x (topLeft boundsA) < x (bottomRight boundsB)
     /\ y (topLeft boundsB) < y (bottomRight boundsA)
     /\ y (topLeft boundsA) < y (bottomRight boundsB))
  /\ (x (bottomRight boundsA) == x (topLeft boundsB)
      \/ x (topLeft boundsA) == x (bottomRight boundsB)
      \/ y (bottomRight boundsA) == y (topLeft boundsB)
      \/ y (topLeft boundsA) == y (bottomRight boundsB) ->
      boundsOverlap boundsA boundsB = false).
Proof.
  split; [apply boundsOverlap_iff |].
  intros T. apply not_true_iff_false. rewrite boundsOverlap_iff.
  intros (H1 & H2 & H3 & H4). destruct T as [T | [T | [T | T]]]; lra.
Qed.

Lemma boundsOverlap_sym (boundsA boundsB : Bounds) :
  boundsOverlap boundsB boundsA = boundsOverlap boundsA boundsB.
Proof.
  destruct (boundsOverlap boundsA boundsB) eqn:E.
  - apply boundsOverlap_iff. apply boundsOverlap_iff in E. tauto.
  - apply not_true_iff_false. intros F. apply boundsOverlap_iff in F.
    apply not_true_iff_false in E. apply E. apply boundsOverlap_iff.
    tauto.
Qed.

(** ** checkOverlap *)

Section ProbeFacts.

Variable getNormal : Vec2 -> Vec2.
Variable vec2_default : Vec2.
Variables posA posB : Vec2.
Variables verticesA verticesB : list Vec2.

Local Abbreviation sep := (separating posA posB verticesA verticesB).
Local Abbreviation pen := (penetration posA posB verticesA verticesB).
Local Abbreviation normals := (edgeNormals getNormal vec2_default verticesA).
Local Abbreviation loop :=
  (checkOverlap_loop getNormal (posB -v posA) verticesA verticesB).

(** The test of line 89 decides [separating]. *)
Lemma separated_iff (n : Vec2) :
  let projA := project verticesA n in
  let projB := shiftedB posA posB verticesB n in
  Qgeb (min projB) (max projA) || Qleb (max projB) (min projA) = true
  <-> sep n.
Proof.
  cbv zeta. unfold separating. rewrite orb_true_iff, Qgeb_ge, Qleb_le.
  tauto.
Qed.

(** One turn of the loop, in the words of the specification. *)
Lemma checkOverlap_loop_cons (vertex1 vertex2 : Vec2) (rest' : list Vec2)
    (m : Q) (nrm : Vec2) :
  loop vertex1 (vertex2 :: rest') m nrm =
    let n := getNormal (vertex2 -v vertex1) in
    let projA := project verticesA n in
    let projB := shiftedB posA posB verticesB n in
    if Qgeb (min projB) (max projA) || Qleb (max projB) (min projA)
    then None
    else if Qltb (pen n) m
         then loop vertex2 rest' (pen n) n
         else loop vertex2 rest' m nrm.
Proof. reflexivity. Qed.

Lemma checkOverlap_loop_spec (rest : list Vec2) :
  forall (vertex1 : Vec2) (m : Q) (nrm : Vec2),
    match loop vertex1 rest m nrm with
    | None => Exists sep (walkNormals getNormal vertex1 rest)
    | Some o =>
        Forall (fun n => ~ sep n) (walkNormals getNormal vertex1 rest)
        /\ answers posA posB verticesA verticesB
             (walkNormals getNormal vertex1 rest) m nrm o
    end.
Proof.
  induction rest as [| vertex2 rest' IH]; intros vertex1 m nrm.
  - cbn [checkOverlap_loop walkNormals]. split; [constructor |].
    left. cbn [depth direction]. auto.
  - rewrite checkOverlap_loop_cons. cbn [walkNormals]. cbv zeta.
    set (n := getNormal (vertex2 -v vertex1)).
    pose proof (separated_iff n) as S. cbv zeta in S.
    destruct (Qgeb _ _ || Qleb _ _) eqn:E.
    + apply Exists_cons_hd. apply S. reflexivity.
    + assert (NS : ~ sep n) by (rewrite <- S; discriminate).
      destruct (Qltb (pen n) m) eqn:L;
        [apply Qltb_lt in L | apply Qltb_ge in L].
      * specialize (IH vertex2 (pen n) n).
        destruct (loop vertex2 rest' (pen n) n) as [o |];
          [| apply Exists_cons_tl; exact IH].
        destruct IH as (F & A). split; [constructor; assumption |].
        right.
        destruct A as [(D & N & G)
                      | (l1 & k & l2 & EQ & N & D & B & G1 & G2)].
        -- exists [], n, (walkNormals getNormal vertex2 rest').
           repeat split; auto.
        -- exists (n :: l1), k, l2. rewrite EQ.
           repeat split; auto. lra.
      * specialize (IH vertex2 m nrm).
        destruct (loop vertex2 rest' m nrm) as [o |];
          [| apply Exists_cons_tl; exact IH].
        destruct IH as (F & A). split; [constructor; assumption |].
        destruct A as [(D & N & G)
                      | (l1 & k & l2 & EQ & N & D & B & G1 & G2)].
        -- left. repeat split; auto.
        -- right. exists (n :: l1), k, l2. rewrite EQ.
           repeat split; auto. constructor; [lra | assumption].
Qed.

Lemma nth_last_vertex (l : list Vec2) (d : Vec2) :
  nth (length l - 1) l d = last l d.
Proof.
  induction l as [| a [| b l'] IH]; try reflexivity.
  change (last (a :: b :: l') d) with (last (b :: l') d).
  rewrite <- IH. cbn [length Nat.sub]. rewrite Nat.sub_0_r. reflexivity.
Qed.

(** The loop visits the edges of the specification, in their order. *)
Lemma walkNormals_from (rest : list Vec2) :
  forall pre : list Vec2,
    verticesA = pre ++ rest ->
    walkNormals getNormal
      (nth (prevIndex (length verticesA) (length pre)) verticesA vec2_default)
      rest
    = map (edgeNormal getNormal vec2_default verticesA)
        (seq (length pre) (length rest)).
Proof.
  induction rest as [| a rest' IH]; intros pre E; [reflexivity |].
  cbn [walkNormals length seq map]. f_equal.
  - unfold edgeNormal. f_equal. f_equal.
    rewrite E at 1. symmetry. apply nth_middle.
  - specialize (IH (pre ++ [a])). rewrite last_length in IH.
    assert (P : prevIndex (length verticesA) (S (length pre)) = length pre).
    { unfold prevIndex. cbn [Nat.eqb]. apply Nat.sub_0_r. }
    rewrite P in IH.
    assert (N : nth (length pre) verticesA vec2_default = a).
    { rewrite E. apply nth_middle. }
    rewrite N in IH. apply IH. rewrite <- app_assoc. exact E.
Qed.

Lemma walkNormals_edgeNormals :
  walkNormals getNormal (last verticesA vec2_default) verticesA = normals.
Proof.
  rewrite <- nth_last_vertex. apply (walkNormals_from verticesA []).
  reflexivity.
Qed.

Lemma checkOverlap_spec :
  match checkOverlap getNormal vec2_default posA posB verticesA verticesB with
  | None => Exists sep normals
  | Some o =>
      Forall (fun n => ~ sep n) normals
      /\ answers posA posB verticesA verticesB normals FLT_MAX vec2_default o
  end.
Proof.
  unfold checkOverlap. cbv zeta. rewrite <- walkNormals_edgeNormals.
  apply checkOverlap_loop_spec.
Qed.

(** The probe over exact arithmetic.  [checkOverlap] reports "no overlap"
    exactly when some edge normal of A is a separating axis.  Otherwise,
    when the penetration on some edge normal is below
    [numeric_limits<float>::max()], the depth it returns is the minimum of
    |projA.max - projB.min| over A's edge normals and its normal is the
    first edge normal that attains this minimum; when no penetration is
    below that bound, the loop never stores a penetration and the answer
    holds the values the loop started from. *)
Theorem checkOverlap_contract :
  (checkOverlap getNormal vec2_default posA posB verticesA verticesB = None
   <-> Exists sep normals)
  /\ (forall o,
        checkOverlap getNormal vec2_default posA posB verticesA verticesB
          = Some o ->
        (Exists (fun n => pen n < FLT_MAX) normals ->
         minimal_penetration getNormal vec2_default posA posB
           verticesA verticesB o
         /\ exists l1 n l2,
             normals = l1 ++ n :: l2
             /\ direction o = n /\ depth o = pen n
             /\ Forall (fun n' => pen n < pen n') l1
             /\ Forall (fun n' => pen n <= pen n') l2)
        /\ (Forall (fun n => FLT_MAX <= pen n) normals ->
            depth o = FLT_MAX /\ direction o = vec2_default)).
Proof.
  pose proof checkOverlap_spec as S.
  destruct (checkOverlap getNormal vec2_default posA posB verticesA
              verticesB) as [o |].
  - destruct S as (NS & A). split.
    + split; [discriminate |]. intros X. exfalso.
      apply Exists_exists in X. destruct X as (n & I & X).
      rewrite Forall_forall in NS. exact (NS n I X).
    + intros o' [= <-]. split.
      * intros X.
        destruct A as [(D & N & G)
                      | (l1 & k & l2 & EQ & N & D & B & G1 & G2)].
        { exfalso. apply Exists_exists in X. destruct X as (n & I & X).
          rewrite Forall_forall in G. specialize (G n I). lra. }
        split; [| exists l1, k, l2; auto].
        unfold minimal_penetration. rewrite EQ. split.
        -- rewrite D. apply Forall_app. split.
           ++ eapply Forall_impl; [| exact G1]. cbv beta. intros; lra.
           ++ constructor; [lra | exact G2].
        -- apply Exists_app. right. apply Exists_cons_hd.
           split; [exact N | rewrite D; reflexivity].
      * intros G.
        destruct A as [(D & N & _)
                      | (l1 & k & l2 & EQ & N & D & B & G1 & G2)]; [auto |].
        exfalso. rewrite Forall_forall in G.
        assert (I : In k normals).
        { rewrite EQ. apply in_or_app. right. left. reflexivity. }
        specialize (G k I). lra.
  - split; [tauto |]. discriminate.
Qed.

End ProbeFacts.

(** The probe A->B of the two unit squares: the contract at work. *)
Lemma checkOverlap_contract_witness :
  minimal_penetration perp_cw vzero centreA centreB unitSquare unitSquare
    (mkOverlap (65536 # 131072) (mkVec2 (4 # 4) (0 # 4))).
Proof.
  apply (proj2 (checkOverlap_contract perp_cw vzero centreA centreB
                  unitSquare unitSquare)).
  - vm_compute. reflexivity.
  - apply Exists_cons_hd. vm_compute. reflexivity.
Defined.


Lemma Qgeb_negb_Qltb (a b : Q) : Qgeb a b = negb (Qltb a b).
Proof. unfold Qgeb, Qltb. symmetry. apply negb_involutive. Qed.


Ltac vec_components :=
  unfold veq, vadd, vsub, vscale, vopp, dot, vzero; cbn [x y].


(** ** solveCollision *)

Section ResolverFacts.

Variable getNormal : Vec2 -> Vec2.
Variable vec2_default : Vec2.
Variables massInverseA massInverseB : Q.
Variables boundsA boundsB : Bounds.
Variables posA posB : Vec2.
Variables verticesA verticesB : list Vec2.

Local Abbreviation solve :=
  (solveCollision getNormal vec2_default massInverseA massInverseB
     boundsA boundsB posA posB verticesA verticesB).
Local Abbreviation probeAB :=
  (checkOverlap getNormal vec2_default posA posB verticesA verticesB).
Local Abbreviation probeBA :=
  (checkOverlap getNormal vec2_default posB posA verticesB verticesA).

(** The four ways out before any body is touched. *)
Lemma solveCollision_miss (s : Bodies) :
  areBothStatic massInverseA massInverseB = true
  \/ boundsOverlap boundsA boundsB = false
  \/ probeAB = None
  \/ probeBA = None ->
  solve s = s.
Proof.
  unfold solveCollision. intros [H | [H | [H | H]]].
  - rewrite H. reflexivity.
  - rewrite H, orb_true_r. reflexivity.
  - rewrite H. destruct (_ || _); reflexivity.
  - rewrite H. destruct (_ || _); [reflexivity |].
    destruct probeAB; reflexivity.
Qed.

(** The path that reaches lines 119-143. *)
Lemma solveCollision_hit (s : Bodies) (overlap1 overlap2 : Overlap) :
  areBothStatic massInverseA massInverseB = false ->
  boundsOverlap boundsA boundsB = true ->
  probeAB = Some overlap1 ->
  probeBA = Some overlap2 ->
  let d := collisionDepth overlap1 overlap2 in
  let n := collisionNormal overlap1 overlap2 in
  let d1 := d * massInverseA / (massInverseA + massInverseB) in
  let d2 := d - d1 in
  let flip := Qgeb (depth overlap1) (depth overlap2) in
  let j := - dot n (velocityA s -v velocityB s) * 2
           / (massInverseA + massInverseB) in
  solve s =
    mkBodies (velocityA s +v n *v (j * massInverseA))
             (velocityB s -v n *v (j * massInverseB))
             (overlapAccumulatorA s -v n *v (if flip then d1 * -1 else d1))
             (overlapAccumulatorB s +v n *v (if flip then d2 * -1 else d2)).
Proof.
  intros HS HB H1 H2. unfold solveCollision.
  rewrite HS, HB, H1, H2. reflexivity.
Qed.

(** With inverse masses that are not negative, passing the guard of line
    108 makes the divisor of lines 125 and 136 positive. *)
Lemma guard_divisor_positive :
  0 <= massInverseA -> 0 <= massInverseB ->
  areBothStatic massInverseA massInverseB = false ->
  0 < massInverseA + massInverseB.
Proof.
  intros HA HB G. unfold areBothStatic in G.
  apply andb_false_iff in G.
  destruct G as [G | G]; apply not_true_iff_false in G;
    rewrite Qeq_bool_iff in G; lra.
Qed.

(** A call either returns every state as it received it, or passes the four
    guards. *)
Lemma solveCollision_cases :
  (forall s, solve s = s)
  \/ (exists overlap1 overlap2,
        areBothStatic massInverseA massInverseB = false
        /\ boundsOverlap boundsA boundsB = true
        /\ probeAB = Some overlap1
        /\ probeBA = Some overlap2).
Proof.
  destruct (areBothStatic massInverseA massInverseB) eqn:HS.
  { left. intros s. apply solveCollision_miss. auto. }
  destruct (boundsOverlap boundsA boundsB) eqn:HO.
  2:{ left. intros s. apply solveCollision_miss. auto. }
  destruct probeAB as [overlap1 |] eqn:H1.
  2:{ left. intros s. apply solveCollision_miss. auto. }
  destruct probeBA as [overlap2 |] eqn:H2.
  2:{ left. intros s. apply solveCollision_miss. auto. }
  right. exists overlap1, overlap2. auto.
Qed.

(** C4.  When both inverse masses are zero, or the bounds do not overlap, or
    either directional probe reports "no overlap", the call returns the four
    mutable vectors as it received them.  The call divides by
    [massInverseA + massInverseB] only on the remaining path, which starts
    after the guard on the two inverse masses has failed; there, for
    inverse masses that are not negative, the divisor is positive. *)
Theorem solveCollision_no_mutation (s : Bodies) :
  (areBothStatic massInverseA massInverseB = true
   \/ boundsOverlap boundsA boundsB = false
   \/ probeAB = None
   \/ probeBA = None ->
   solve s = s)
  /\ (massInverseA == 0 /\ massInverseB == 0 -> solve s = s)
  /\ (0 <= massInverseA -> 0 <= massInverseB ->
      solve s <> s -> 0 < massInverseA + massInverseB).
Proof.
  split; [apply solveCollision_miss |]. split.
  - intros (HA & HB). apply solveCollision_miss. left.
    unfold areBothStatic. apply andb_true_iff.
    split; apply Qeq_bool_iff; assumption.
  - intros HA HB NE. apply guard_divisor_positive; try assumption.
    destruct (areBothStatic massInverseA massInverseB) eqn:G;
      [| reflexivity].
    exfalso. apply NE. apply solveCollision_miss. left. exact G.
Qed.

(** C2.  On the path that reaches the impulse step, with [n] the selected
    collision normal: vRel = velocityA - velocityB,
    j = -(n . vRel) * 2 / (invMassA + invMassB),
    velocityA' = velocityA + n * (j * invMassA),
    velocityB' = velocityB - n * (j * invMassB).
    The two velocities returned are these and nothing else; the factor is
    the literal 2. *)
Theorem solveCollision_impulse (s : Bodies) (overlap1 overlap2 : Overlap) :
  areBothStatic massInverseA massInverseB = false ->
  boundsOverlap boundsA boundsB = true ->
  probeAB = Some overlap1 ->
  probeBA = Some overlap2 ->
  let n := collisionNormal overlap1 overlap2 in
  let vRel := velocityA s -v velocityB s in
  let j := - (x n * x vRel + y n * y vRel) * 2
           / (massInverseA + massInverseB) in
  velocityA (solve s)
  = mkVec2 (x (velocityA s) + x n * (j * massInverseA))
           (y (velocityA s) + y n * (j * massInverseA))
  /\ velocityB (solve s)
     = mkVec2 (x (velocityB s) - x n * (j * massInverseB))
              (y (velocityB s) - y n * (j * massInverseB)).
Proof.
  intros HS HB H1 H2.
  rewrite (solveCollision_hit s overlap1 overlap2 HS HB H1 H2).
  split; reflexivity.
Qed.



(** What a call adds to the accumulators does not depend on the state it
    starts from. *)
Lemma solveCollision_adds (s : Bodies) :
  overlapAccumulatorA (solve s)
  =v overlapAccumulatorA s
     +v correctionA getNormal vec2_default massInverseA massInverseB
          boundsA boundsB posA posB verticesA verticesB
  /\ overlapAccumulatorB (solve s)
     =v overlapAccumulatorB s
        +v correctionB getNormal vec2_default massInverseA massInverseB
             boundsA boundsB posA posB verticesA verticesB.
Proof.
  unfold correctionA, correctionB.
  destruct solveCollision_cases
    as [M | (overlap1 & overlap2 & HS & HO & H1 & H2)].
  - rewrite !M. cbn [overlapAccumulatorA overlapAccumulatorB].
    vec_components. repeat split; ring.
  - rewrite !(solveCollision_hit _ overlap1 overlap2 HS HO H1 H2).
    cbv zeta. cbn [overlapAccumulatorA overlapAccumulatorB].
    vec_components. repeat split; ring.
Qed.


(** The accumulators are never read: the velocities a call returns do not
    depend on them. *)
Lemma solveCollision_ignores_accumulators (s : Bodies) (accA accB : Vec2) :
  velocityA (solve (mkBodies (velocityA s) (velocityB s) accA accB))
  = velocityA (solve s)
  /\ velocityB (solve (mkBodies (velocityA s) (velocityB s) accA accB))
     = velocityB (solve s).
Proof.
  destruct solveCollision_cases
    as [M | (overlap1 & overlap2 & HS & HO & H1 & H2)].
  - rewrite !M. split; reflexivity.
  - rewrite (solveCollision_hit s overlap1 overlap2 HS HO H1 H2).
    rewrite (solveCollision_hit _ overlap1 overlap2 HS HO H1 H2).
    split; reflexivity.
Qed.

End ResolverFacts.

(** ** Swapping the two bodies *)

Lemma areBothStatic_sym (a b : Q) : areBothStatic b a = areBothStatic a b.
Proof. unfold areBothStatic. apply andb_comm. Qed.

Lemma bodies_eq_refl (s : Bodies) : bodies_eq s s.
Proof. unfold bodies_eq, veq. repeat split; reflexivity. Qed.

Section SwapFacts.

Variable getNormal : Vec2 -> Vec2.
Variable vec2_default : Vec2.
Variables massInverseA massInverseB : Q.
Variables boundsA boundsB : Bounds.
Variables posA posB : Vec2.
Variables verticesA verticesB : list Vec2.

Local Abbreviation probeAB :=
  (checkOverlap getNormal vec2_default posA posB verticesA verticesB).
Local Abbreviation probeBA :=
  (checkOverlap getNormal vec2_default posB posA verticesB verticesA).
Local Abbreviation unswapped :=
  (resolved getNormal vec2_default massInverseA massInverseB
     boundsA boundsB posA posB verticesA verticesB).
Local Abbreviation swapped :=
  (resolvedSwapped getNormal vec2_default massInverseA massInverseB
     boundsA boundsB posA posB verticesA verticesB).

(** Each body is left by the swapped call as it is by the unswapped call,
    and within one call the deltas of the two bodies are opposite and in the
    ratio invMassA : invMassB. *)
Lemma swap_same_bodies (s : Bodies) :
  0 <= massInverseA -> 0 <= massInverseB ->
  (forall overlap1 overlap2,
     probeAB = Some overlap1 -> probeBA = Some overlap2 ->
     ~ depth overlap1 == depth overlap2
     \/ direction overlap1 =v vopp (direction overlap2)) ->
  bodies_eq (swapped s) (swapBodies (unswapped s))
  /\ (velocityA (unswapped s) -v velocityA s) *v massInverseB
     =v vopp ((velocityB (unswapped s) -v velocityB s) *v massInverseA)
  /\ (overlapAccumulatorA (unswapped s) -v overlapAccumulatorA s)
       *v massInverseB
     =v vopp ((overlapAccumulatorB (unswapped s) -v overlapAccumulatorB s)
              *v massInverseA).
Proof.
  intros HA HB T. unfold resolved, resolvedSwapped.
  set (r := solveCollision getNormal vec2_default massInverseA massInverseB
              boundsA boundsB posA posB verticesA verticesB s).
  set (r' := solveCollision getNormal vec2_default massInverseB massInverseA
               boundsB boundsA posB posA verticesB verticesA (swapBodies s)).
  assert (MISS : r = s -> r' = swapBodies s ->
    bodies_eq r' (swapBodies r)
    /\ (velocityA r -v velocityA s) *v massInverseB
       =v vopp ((velocityB r -v velocityB s) *v massInverseA)
    /\ (overlapAccumulatorA r -v overlapAccumulatorA s) *v massInverseB
       =v vopp ((overlapAccumulatorB r -v overlapAccumulatorB s)
                *v massInverseA)).
  { intros E1 E2. rewrite E1, E2.
    split; [apply bodies_eq_refl |]. vec_components.
    repeat split; ring. }
  destruct (areBothStatic massInverseA massInverseB) eqn:HS.
  { apply MISS; apply solveCollision_miss; left;
      [| rewrite areBothStatic_sym]; exact HS. }
  destruct (boundsOverlap boundsA boundsB) eqn:HO.
  2:{ apply MISS; apply solveCollision_miss; right; left;
        [| rewrite boundsOverlap_sym]; exact HO. }
  destruct probeAB as [overlap1 |] eqn:H1.
  2:{ apply MISS; apply solveCollision_miss; auto. }
  destruct probeBA as [overlap2 |] eqn:H2.
  2:{ apply MISS; apply solveCollision_miss; auto. }
  clear MISS. subst r r'.
  pose proof (guard_divisor_positive _ _ HA HB HS) as P.
  specialize (T overlap1 overlap2 eq_refl eq_refl).
  rewrite (solveCollision_hit getNormal vec2_default massInverseA
             massInverseB boundsA boundsB posA posB verticesA verticesB
             s overlap1 overlap2 HS HO H1 H2).
  rewrite <- areBothStatic_sym in HS. rewrite <- boundsOverlap_sym in HO.
  rewrite (solveCollision_hit getNormal vec2_default massInverseB
             massInverseA boundsB boundsA posB posA verticesB verticesA
             (swapBodies s) overlap2 overlap1 HS HO H2 H1).
  cbv zeta. unfold bodies_eq, swapBodies.
  cbn [velocityA velocityB overlapAccumulatorA overlapAccumulatorB].
  rewrite !Qgeb_negb_Qltb. unfold collisionDepth, collisionNormal, std_min.
  destruct (Qltb (depth overlap1) (depth overlap2)) eqn:L12;
    [apply Qltb_lt in L12 | apply Qltb_ge in L12];
    (destruct (Qltb (depth overlap2) (depth overlap1)) eqn:L21;
      [apply Qltb_lt in L21 | apply Qltb_ge in L21]);
    cbn [negb].
  - exfalso. lra.
  - vec_components. repeat split; field; lra.
  - vec_components. repeat split; field; lra.
  - destruct T as [T | (Tx & Ty)]; [exfalso; apply T; lra |].
    assert (D : depth overlap2 == depth overlap1) by lra.
    cbn [x y vopp] in Tx, Ty.
    vec_components. repeat split; rewrite ?Tx, ?Ty, ?D; field; lra.
Qed.

(** C6, as amended.  Over exact arithmetic and for inverse masses that are
    not negative: when the two probe depths differ, or the two probe normals
    are opposite, the call with the argument lists swapped leaves each body
    with the velocity and the accumulator the unswapped call leaves it with,
    so each body's deltas are the same in both calls.  Within one call the
    deltas of the two bodies are opposite and in the ratio
    invMassA : invMassB, for the velocities and for the accumulators.  When
    the two inverse masses are equal, the deltas of the swapped call are
    therefore the opposites, argument by argument, of those of the unswapped
    call. *)
Theorem swap_same_deltas (s : Bodies) :
  0 <= massInverseA -> 0 <= massInverseB ->
  (forall overlap1 overlap2,
     probeAB = Some overlap1 -> probeBA = Some overlap2 ->
     ~ depth overlap1 == depth overlap2
     \/ direction overlap1 =v vopp (direction overlap2)) ->
  bodies_eq (swapped s) (swapBodies (unswapped s))
  /\ (velocityA (unswapped s) -v velocityA s) *v massInverseB
     =v vopp ((velocityB (unswapped s) -v velocityB s) *v massInverseA)
  /\ (overlapAccumulatorA (unswapped s) -v overlapAccumulatorA s)
       *v massInverseB
     =v vopp ((overlapAccumulatorB (unswapped s) -v overlapAccumulatorB s)
              *v massInverseA)
  /\ (massInverseA == massInverseB ->
      swap_opposite_by_position getNormal vec2_default massInverseA
        massInverseB boundsA boundsB posA posB verticesA verticesB s).
Proof.
  intros HA HB T.
  destruct (swap_same_bodies s HA HB T) as (E & RV & RA).
  split; [exact E |]. split; [exact RV |]. split; [exact RA |].
  intros EQ. unfold swap_opposite_by_position.
  destruct (Qeq_dec massInverseA 0) as [Z | NZ].
  - assert (M : unswapped s = s).
    { apply solveCollision_miss. left. unfold areBothStatic.
      apply andb_true_iff. split; apply Qeq_bool_iff; lra. }
    assert (M' : swapped s = swapBodies s).
    { apply solveCollision_miss. left. unfold areBothStatic.
      apply andb_true_iff. split; apply Qeq_bool_iff; lra. }
    rewrite M, M'. vec_components. repeat split; ring.
  - destruct E as ((EAx & EAy) & (EBx & EBy) & (ECx & ECy) & (EDx & EDy)).
    destruct RV as (RVx & RVy). destruct RA as (RAx & RAy).
    unfold swapBodies in *.
    cbn [velocityA velocityB overlapAccumulatorA overlapAccumulatorB] in *.
    unfold veq, vsub, vscale, vopp in *. cbn [x y] in *.
    assert (C : forall a b : Q,
              a * massInverseB == - (b * massInverseA) -> b == - a).
    { intros a b H. apply (Qmult_inj_r _ _ massInverseA NZ).
      assert (H' : a * massInverseA == a * massInverseB)
        by (apply Qmult_comp; [reflexivity | exact EQ]).
      nra. }
    apply C in RVx, RVy, RAx, RAy.
    repeat split; lra.
Qed.

End SwapFacts.

(** ** Accumulation over two calls *)

Section Accumulation.

Variable getNormal : Vec2 -> Vec2.
Variable vec2_default : Vec2.

(** The read-only arguments of a first and of a second call. *)
Variables massInverseA massInverseB : Q.
Variables boundsA boundsB : Bounds.
Variables posA posB : Vec2.
Variables verticesA verticesB : list Vec2.
Variables massInverseA' massInverseB' : Q.
Variables boundsA' boundsB' : Bounds.
Variables posA' posB' : Vec2.
Variables verticesA' verticesB' : list Vec2.

Local Abbreviation first :=
  (solveCollision getNormal vec2_default massInverseA massInverseB
     boundsA boundsB posA posB verticesA verticesB).
Local Abbreviation second :=
  (solveCollision getNormal vec2_default massInverseA' massInverseB'
     boundsA' boundsB' posA' posB' verticesA' verticesB').
Local Abbreviation firstA :=
  (correctionA getNormal vec2_default massInverseA massInverseB
     boundsA boundsB posA posB verticesA verticesB).
Local Abbreviation firstB :=
  (correctionB getNormal vec2_default massInverseA massInverseB
     boundsA boundsB posA posB verticesA verticesB).
Local Abbreviation secondA :=
  (correctionA getNormal vec2_default massInverseA' massInverseB'
     boundsA' boundsB' posA' posB' verticesA' verticesB').
Local Abbreviation secondB :=
  (correctionB getNormal vec2_default massInverseA' massInverseB'
     boundsA' boundsB' posA' posB' verticesA' verticesB').

(** C7, as amended.  Over exact arithmetic.  A call adds to each
    accumulator a correction fixed by the call's read-only arguments: the
    same whatever the accumulators (and the velocities) held before, and the
    velocities returned do not depend on the accumulators.  After a first
    and a second call on the same body,
    whichever of the two argument lists the body takes in each call and
    whatever the second call's velocities and other body are, the body's
    accumulator holds its initial value plus the sum of the two
    corrections. *)
Theorem accumulators_additive (s : Bodies)
    (accA accB velA velB other : Vec2) :
  overlapAccumulatorA (first s) =v overlapAccumulatorA s +v firstA
  /\ overlapAccumulatorB (first s) =v overlapAccumulatorB s +v firstB
  /\ velocityA (first (mkBodies (velocityA s) (velocityB s) accA accB))
     = velocityA (first s)
  /\ velocityB (first (mkBodies (velocityA s) (velocityB s) accA accB))
     = velocityB (first s)
  /\ overlapAccumulatorA
       (second (mkBodies velA velB (overlapAccumulatorA (first s)) other))
     =v overlapAccumulatorA s +v (firstA +v secondA)
  /\ overlapAccumulatorB
       (second (mkBodies velA velB other (overlapAccumulatorA (first s))))
     =v overlapAccumulatorA s +v (firstA +v secondB)
  /\ overlapAccumulatorA
       (second (mkBodies velA velB (overlapAccumulatorB (first s)) other))
     =v overlapAccumulatorB s +v (firstB +v secondA)
  /\ overlapAccumulatorB
       (second (mkBodies velA velB other (overlapAccumulatorB (first s))))
     =v overlapAccumulatorB s +v (firstB +v secondB).
Proof.
  pose proof (solveCollision_adds getNormal vec2_default massInverseA
                massInverseB boundsA boundsB posA posB verticesA verticesB s)
    as ((A1x & A1y) & (B1x & B1y)).
  pose proof (solveCollision_ignores_accumulators getNormal vec2_default
                massInverseA massInverseB boundsA boundsB posA posB
                verticesA verticesB s accA accB) as (V1 & V2).
  pose proof (fun t =>
                solveCollision_adds getNormal vec2_default massInverseA'
                  massInverseB' boundsA' boundsB' posA' posB' verticesA'
                  verticesB' t) as S2.
  unfold veq, vadd in *. cbn [x y] in *.
  split; [split; assumption |]. split; [split; assumption |].
  split; [exact V1 |]. split; [exact V2 |].
  repeat split.
  - destruct (S2 (mkBodies velA velB (overlapAccumulatorA (first s)) other))
      as ((E & _) & _).
    cbn [overlapAccumulatorA] in E. lra.
  - destruct (S2 (mkBodies velA velB (overlapAccumulatorA (first s)) other))
      as ((_ & E) & _).
    cbn [overlapAccumulatorA] in E. lra.
  - destruct (S2 (mkBodies velA velB other (overlapAccumulatorA (first s))))
      as (_ & (E & _)).
    cbn [overlapAccumulatorB] in E. lra.
  - destruct (S2 (mkBodies velA velB other (overlapAccumulatorA (first s))))
      as (_ & (_ & E)).
    cbn [overlapAccumulatorB] in E. lra.
  - destruct (S2 (mkBodies velA velB (overlapAccumulatorB (first s)) other))
      as ((E & _) & _).
    cbn [overlapAccumulatorA] in E. lra.
  - destruct (S2 (mkBodies velA velB (overlapAccumulatorB (first s)) other))
      as ((_ & E) & _).
    cbn [overlapAccumulatorA] in E. lra.
  - destruct (S2 (mkBodies velA velB other (overlapAccumulatorB (first s))))
      as (_ & (E & _)).
    cbn [overlapAccumulatorB] in E. lra.
  - destruct (S2 (mkBodies velA velB other (overlapAccumulatorB (first s))))
      as (_ & (_ & E)).
    cbn [overlapAccumulatorB] in E. lra.
Qed.

End Accumulation.

(** ** The two unit squares *)

Lemma squares_probes (getNormal : Vec2 -> Vec2) (vec2_default : Vec2) :
  getNormal = perp_cw \/ getNormal = perp_ccw ->
  squaresProbeAB getNormal vec2_default = Some squaresOverlapAB
  /\ squaresProbeBA getNormal vec2_default = Some squaresOverlapBA.
Proof. intros [-> | ->]; split; vm_compute; reflexivity. Qed.

Lemma squares_outcome_quarter (getNormal : Vec2 -> Vec2)
    (vec2_default : Vec2) :
  getNormal = perp_cw \/ getNormal = perp_ccw ->
  squares_outcome getNormal vec2_default (1 # 4)
  /\ overlapAccumulatorA
       (squaresResolved getNormal vec2_default 1 1
          (mkBodies vzero vzero vzero vzero))
     =v mkVec2 (- (1 # 4)) 0
  /\ overlapAccumulatorB
       (squaresResolved getNormal vec2_default 1 1
          (mkBodies vzero vzero vzero vzero))
     =v mkVec2 (1 # 4) 0.
Proof.
  intros G. destruct (squares_probes getNormal vec2_default G) as (PA & PB).
  assert (R : squaresResolved getNormal vec2_default 1 1
                (mkBodies vzero vzero vzero vzero)
              = squaresResolved perp_cw vzero 1 1
                  (mkBodies vzero vzero vzero vzero)).
  { unfold squaresResolved.
    rewrite (solveCollision_hit getNormal vec2_default 1 1 _ _ _ _ _ _ _
               squaresOverlapAB squaresOverlapBA);
      [| reflexivity | reflexivity | exact PA | exact PB].
    vm_compute. reflexivity. }
  split; [| rewrite R; vm_compute; auto].
  unfold squares_outcome. cbv zeta.
  exists squaresOverlapAB, squaresOverlapBA. rewrite R.
  split; [exact PA |]. split; [exact PB |].
  vm_compute. repeat split; try reflexivity; try discriminate.
  left. split; split; reflexivity.
Qed.

(** C8, as amended.  For the two axis-aligned unit squares, A centred at
    (0, 0) and B at (0.5, 0), both of inverse mass 1 and at rest, with their
    bounds: both probes report an overlap, the depth is 0.5 and the normal
    lies along the x-axis; the call adds (-0.25, 0) to A's accumulator and
    (0.25, 0) to B's, corrections of equal magnitude 0.25 in opposite
    x-directions; both velocities stay (0, 0).  This holds for either
    quarter turn as [getNormal] (on edges of length 1 a quarter turn is the
    unit normal) and for any default-constructed vector. *)
Theorem unit_squares_outcome (vec2_default : Vec2) :
  (squares_outcome perp_cw vec2_default (1 # 4)
   /\ squares_outcome perp_ccw vec2_default (1 # 4))
  /\ (overlapAccumulatorA
        (squaresResolved perp_cw vec2_default 1 1
           (mkBodies vzero vzero vzero vzero))
      =v mkVec2 (- (1 # 4)) 0
      /\ overlapAccumulatorB
           (squaresResolved perp_cw vec2_default 1 1
              (mkBodies vzero vzero vzero vzero))
         =v mkVec2 (1 # 4) 0)
  /\ (overlapAccumulatorA
        (squaresResolved perp_ccw vec2_default 1 1
           (mkBodies vzero vzero vzero vzero))
      =v mkVec2 (- (1 # 4)) 0
      /\ overlapAccumulatorB
           (squaresResolved perp_ccw vec2_default 1 1
              (mkBodies vzero vzero vzero vzero))
         =v mkVec2 (1 # 4) 0).
Proof.
  destruct (squares_outcome_quarter perp_cw vec2_default) as (A1 & A2);
    [auto |].
  destruct (squares_outcome_quarter perp_ccw vec2_default) as (B1 & B2);
    [auto |].
  auto.
Qed.

(** C8 fails as stated: the corrections are not of magnitude 0.125, in
    either order of signs and with either quarter turn for [getNormal]. *)
Lemma unit_squares_counterexample :
  ~ squares_outcome perp_cw vzero (1 # 8)
  /\ ~ squares_outcome perp_ccw vzero (1 # 8).
Proof.
  split; intros (o1 & o2 & _ & _ & _ & _ & _ & H & _);
    destruct H as [((H & _) & _) | ((H & _) & _)];
    vm_compute in H; discriminate H.
Qed.

(** C6 fails as stated: on the two unit squares with inverse masses 1 and
    3 and body A approaching at speed 1, the swapped call adds (1.5, 0) to
    the velocity of its first body where the unswapped call adds (-0.5, 0)
    to the velocity of its first body; and it adds to body A's velocity the
    same (-0.5, 0) the unswapped call adds, not the opposite. *)
Lemma swap_opposite_counterexample :
  ~ swap_opposite_by_position perp_cw vzero 1 3
      (squareBounds centreA (1 # 2)) (squareBounds centreB (1 # 2))
      centreA centreB unitSquare unitSquare approaching
  /\ ~ swap_opposite_by_body perp_cw vzero 1 3
        (squareBounds centreA (1 # 2)) (squareBounds centreB (1 # 2))
        centreA centreB unitSquare unitSquare approaching.
Proof.
  split; intros ((H & _) & _); vm_compute in H; discriminate H.
Qed.

(** ** The theorems at work on the two unit squares *)

(** Two boxes that touch along x = 1/2 do not overlap. *)
Lemma boundsOverlap_strict_witness :
  x (bottomRight (squareBounds centreA (1 # 2)))
  == x (topLeft (squareBounds (mkVec2 1 0) (1 # 2)))
  /\ boundsOverlap (squareBounds centreA (1 # 2))
       (squareBounds (mkVec2 1 0) (1 # 2)) = false.
Proof.
  assert (H : x (bottomRight (squareBounds centreA (1 # 2)))
              == x (topLeft (squareBounds (mkVec2 1 0) (1 # 2))))
    by (vm_compute; reflexivity).
  split; [exact H |].
  apply (proj2 (boundsOverlap_strict (squareBounds centreA (1 # 2))
                  (squareBounds (mkVec2 1 0) (1 # 2)))).
  left. exact H.
Defined.

(** Inverse masses 1 and 3, A approaching at speed 1: A leaves at
    (1/2, 0), B at (3/2, 0). *)
Lemma solveCollision_impulse_witness :
  areBothStatic 1 3 = false
  /\ boundsOverlap (squareBounds centreA (1 # 2))
       (squareBounds centreB (1 # 2)) = true
  /\ squaresProbeAB perp_cw vzero = Some squaresOverlapAB
  /\ squaresProbeBA perp_cw vzero = Some squaresOverlapBA
  /\ velocityA (squaresResolved perp_cw vzero 1 3 approaching)
     =v mkVec2 (1 # 2) 0
  /\ velocityB (squaresResolved perp_cw vzero 1 3 approaching)
     =v mkVec2 (3 # 2) 0.
Proof.
  assert (HS : areBothStatic 1 3 = false) by reflexivity.
  assert (HO : boundsOverlap (squareBounds centreA (1 # 2))
                 (squareBounds centreB (1 # 2)) = true) by reflexivity.
  assert (H1 : squaresProbeAB perp_cw vzero = Some squaresOverlapAB)
    by (vm_compute; reflexivity).
  assert (H2 : squaresProbeBA perp_cw vzero = Some squaresOverlapBA)
    by (vm_compute; reflexivity).
  destruct (solveCollision_impulse perp_cw vzero 1 3 _ _ _ _ _ _ approaching
              squaresOverlapAB squaresOverlapBA HS HO H1 H2) as (EA & EB).
  repeat (split; [assumption |]). unfold squaresResolved.
  rewrite EA, EB. vm_compute. repeat split; reflexivity.
Defined.

(** Two squares whose bounds only touch: nothing changes. *)
Lemma solveCollision_no_mutation_witness :
  boundsOverlap (squareBounds centreA (1 # 2))
    (squareBounds (mkVec2 1 0) (1 # 2)) = false
  /\ solveCollision perp_cw vzero 1 3
       (squareBounds centreA (1 # 2)) (squareBounds (mkVec2 1 0) (1 # 2))
       centreA (mkVec2 1 0) unitSquare unitSquare approaching
     = approaching.
Proof.
  assert (HO : boundsOverlap (squareBounds centreA (1 # 2))
                 (squareBounds (mkVec2 1 0) (1 # 2)) = false) by reflexivity.
  split; [exact HO |].
  apply (proj1 (solveCollision_no_mutation perp_cw vzero 1 3
                  (squareBounds centreA (1 # 2))
                  (squareBounds (mkVec2 1 0) (1 # 2))
                  centreA (mkVec2 1 0) unitSquare unitSquare approaching)).
  right. left. exact HO.
Defined.


(** The two probes tie on the unit squares, with opposite normals: the
    swapped call leaves each body as the unswapped call does. *)
Lemma swap_same_deltas_witness :
  0 <= 1 /\ 0 <= 3
  /\ direction squaresOverlapAB =v vopp (direction squaresOverlapBA)
  /\ bodies_eq
       (resolvedSwapped perp_cw vzero 1 3
          (squareBounds centreA (1 # 2)) (squareBounds centreB (1 # 2))
          centreA centreB unitSquare unitSquare approaching)
       (swapBodies
          (resolved perp_cw vzero 1 3
             (squareBounds centreA (1 # 2)) (squareBounds centreB (1 # 2))
             centreA centreB unitSquare unitSquare approaching)).
Proof.
  assert (HA : 0 <= 1) by (unfold Qle; simpl; lia).
  assert (HB : 0 <= 3) by (unfold Qle; simpl; lia).
  assert (HN : direction squaresOverlapAB
               =v vopp (direction squaresOverlapBA))
    by (vm_compute; split; reflexivity).
  repeat (split; [assumption |]).
  apply (swap_same_deltas perp_cw vzero 1 3
           (squareBounds centreA (1 # 2)) (squareBounds centreB (1 # 2))
           centreA centreB unitSquare unitSquare approaching HA HB).
  intros overlap1 overlap2 E1 E2. right.
  vm_compute in E1. vm_compute in E2.
  injection E1 as <-. injection E2 as <-. exact HN.
Defined.


(** The other scenario of the specification: body B immovable, body A of
    inverse mass 1 running into it at (1, 0).  A leaves at (-1, 0) and takes
    the whole correction, B stays as it was. *)
Example wall_bounce :
  bodies_eq
    (squaresResolved perp_cw vzero 1 0 approaching)
    (mkBodies (mkVec2 (-1) 0) vzero (mkVec2 (- (1 # 2)) 0) vzero).
Proof. vm_compute. repeat split; reflexivity. Qed.

(** * Further properties *)

(** ** project *)

Lemma least_of_unique (m : Q) (ds : list Q) (z z' : Q) :
  least_of m ds z -> least_of m ds z' -> z == z'.
Proof.
  assert (LE : forall a b, least_of m ds a -> least_of m ds b -> a <= b).
  { intros a b (Am & Ad & _) (_ & _ & [Bm | Bd]).
    - rewrite Bm. exact Am.
    - apply Exists_exists in Bd. destruct Bd as (d & I & E).
      rewrite Forall_forall in Ad. rewrite E. apply Ad, I. }
  intros H H'. apply Qle_antisym; apply LE; assumption.
Qed.

Lemma greatest_of_unique (m : Q) (ds : list Q) (z z' : Q) :
  greatest_of m ds z -> greatest_of m ds z' -> z == z'.
Proof.
  assert (LE : forall a b, greatest_of m ds a -> greatest_of m ds b -> a <= b).
  { intros a b (_ & _ & [Am | Ad]) (Bm & Bd & _).
    - rewrite Am. exact Bm.
    - apply Exists_exists in Ad. destruct Ad as (d & I & E).
      rewrite Forall_forall in Bd. rewrite E. apply Bd, I. }
  intros H H'. apply Qle_antisym; apply LE; assumption.
Qed.

Section ProjectFacts.

Variable n : Vec2.

Local Abbreviation dots := (map (dot n)).

(** The loop of [project], entered with any running interval. *)
Lemma project_fold (vertices : list Vec2) :
  forall acc : Projection,
    least_of (min acc) (dots vertices)
      (min (fold_left (project_step n) vertices acc))
    /\ greatest_of (max acc) (dots vertices)
         (max (fold_left (project_step n) vertices acc)).
Proof.
  induction vertices as [| v l IH]; intros acc.
  - cbn [fold_left map]. unfold least_of, greatest_of.
    repeat split; try apply Qle_refl; try constructor; reflexivity.
  - cbn [fold_left map].
    destruct (IH (project_step n acc v))
      as ((L1 & L2 & L3) & (G1 & G2 & G3)).
    set (r := fold_left (project_step n) l (project_step n acc v)) in *.
    assert (Em : min (project_step n acc v)
                 = if Qltb (dot n v) (min acc) then dot n v else min acc)
      by reflexivity.
    assert (Ex : max (project_step n acc v)
                 = if Qltb (max acc) (dot n v) then dot n v else max acc)
      by reflexivity.
    rewrite Em in L1, L3. rewrite Ex in G1, G3. clear Em Ex.
    split.
    + revert L1 L3.
      destruct (Qltb (dot n v) (min acc)) eqn:C;
        [apply Qltb_lt in C | apply Qltb_ge in C]; intros L1 L3.
      * repeat split; [lra | constructor; assumption |].
        destruct L3 as [E | E]; right;
          [apply Exists_cons_hd; exact E | apply Exists_cons_tl; exact E].
      * repeat split; [assumption | constructor; [lra | assumption] |].
        destruct L3 as [E | E]; [left; exact E |].
        right. apply Exists_cons_tl. exact E.
    + revert G1 G3.
      destruct (Qltb (max acc) (dot n v)) eqn:C;
        [apply Qltb_lt in C | apply Qltb_ge in C]; intros G1 G3.
      * repeat split; [lra | constructor; assumption |].
        destruct G3 as [E | E]; right;
          [apply Exists_cons_hd; exact E | apply Exists_cons_tl; exact E].
      * repeat split; [assumption | constructor; [lra | assumption] |].
        destruct G3 as [E | E]; [left; exact E |].
        right. apply Exists_cons_tl. exact E.
Qed.

Lemma project_least_greatest (vertices : list Vec2) :
  least_of FLT_MAX (dots vertices) (min (project vertices n))
  /\ greatest_of FLT_LOWEST (dots vertices) (max (project vertices n)).
Proof. apply (project_fold vertices (mkProjection FLT_MAX FLT_LOWEST)). Qed.

End ProjectFacts.

Lemma dot_translate (n v t : Vec2) : dot n (v +v t) == dot n v + dot n t.
Proof. unfold dot, vadd. cbn [x y]. ring. Qed.



(** Projecting two vertex sets put end to end gives the hull of the two
    intervals: the smaller of the two minima and the larger of the two
    maxima. *)
Theorem project_app (l1 l2 : list Vec2) (n : Vec2) :
  projection_eq (project (l1 ++ l2) n)
    (mkProjection (Qmin (min (project l1 n)) (min (project l2 n)))
                  (Qmax (max (project l1 n)) (max (project l2 n)))).
Proof.
  destruct (project_least_greatest n (l1 ++ l2)) as (L & G).
  destruct (project_least_greatest n l1)
    as ((A1 & A2 & A3) & (B1 & B2 & B3)).
  destruct (project_least_greatest n l2)
    as ((C1 & C2 & C3) & (D1 & D2 & D3)).
  rewrite map_app in L, G.
  unfold projection_eq. cbn [min max]. split.
  - destruct (Q.min_spec (min (project l1 n)) (min (project l2 n)))
      as [(O & E) | (O & E)]; rewrite E;
      apply (least_of_unique _ _ _ _ L); unfold least_of.
    + split; [exact A1 |]. split.
      * apply Forall_app. split; [exact A2 |].
        eapply Forall_impl; [| exact C2]. cbv beta. intros; lra.
      * destruct A3 as [H | H]; [left; exact H |].
        right. apply Exists_app. left. exact H.
    + split; [exact C1 |]. split.
      * apply Forall_app. split; [| exact C2].
        eapply Forall_impl; [| exact A2]. cbv beta. intros; lra.
      * destruct C3 as [H | H]; [left; exact H |].
        right. apply Exists_app. right. exact H.
  - destruct (Q.max_spec (max (project l1 n)) (max (project l2 n)))
      as [(O & E) | (O & E)]; rewrite E;
      apply (greatest_of_unique _ _ _ _ G); unfold greatest_of.
    + split; [exact D1 |]. split.
      * apply Forall_app. split; [| exact D2].
        eapply Forall_impl; [| exact B2]. cbv beta. intros; lra.
      * destruct D3 as [H | H]; [left; exact H |].
        right. apply Exists_app. right. exact H.
    + split; [exact B1 |]. split.
      * apply Forall_app. split; [exact B2 |].
        eapply Forall_impl; [| exact D2]. cbv beta. intros; lra.
      * destruct B3 as [H | H]; [left; exact H |].
        right. apply Exists_app. left. exact H.
Qed.

(** The order of the vertices does not matter to [project]: two vertex
    sets that are permutations of one another have numerically the same
    interval on every axis. *)
Theorem project_permutation (l l' : list Vec2) (n : Vec2) :
  Permutation l l' -> projection_eq (project l n) (project l' n).
Proof.
  intros P.
  destruct (project_least_greatest n l) as ((A1 & A2 & A3) & (B1 & B2 & B3)).
  destruct (project_least_greatest n l') as (L & G).
  assert (PM : Permutation (map (dot n) l) (map (dot n) l'))
    by (apply Permutation_map; exact P).
  split.
  - apply (least_of_unique FLT_MAX (map (dot n) l')); [| exact L].
    split; [exact A1 |]. split.
    + rewrite <- PM. exact A2.
    + destruct A3 as [H | H]; [left; exact H |]. right.
      rewrite <- PM. exact H.
  - apply (greatest_of_unique FLT_LOWEST (map (dot n) l')); [| exact G].
    split; [exact B1 |]. split.
    + rewrite <- PM. exact B2.
    + destruct B3 as [H | H]; [left; exact H |]. right.
      rewrite <- PM. exact H.
Qed.

(** With at least one vertex and every projection within the range of
    [float], the extrema are attained by vertices. *)
Lemma project_attained (vertices : list Vec2) (n : Vec2) :
  vertices <> [] ->
  Forall (fun v => FLT_LOWEST <= dot n v /\ dot n v <= FLT_MAX) vertices ->
  Exists (fun v => min (project vertices n) == dot n v) vertices
  /\ Exists (fun v => max (project vertices n) == dot n v) vertices.
Proof.
  intros NE R.
  destruct (project_least_greatest n vertices)
    as ((L1 & L2 & L3) & (G1 & G2 & G3)).
  rewrite Forall_map in L2, G2. rewrite Exists_map in L3, G3.
  destruct vertices as [| v l]; [contradiction |].
  inversion R as [| ? ? (R1 & R2) _]; subst.
  inversion L2 as [| ? ? L2v _]; subst.
  inversion G2 as [| ? ? G2v _]; subst.
  split.
  - destruct L3 as [E | E]; [| exact E].
    apply Exists_cons_hd. lra.
  - destruct G3 as [E | E]; [| exact E].
    apply Exists_cons_hd. lra.
Qed.

(** Over exact arithmetic, [project] commutes with a translation of the
    vertices, within the range of [float]. *)
Lemma project_shift (vertices : list Vec2) (n t : Vec2) :
  vertices <> [] ->
  Forall (fun v => FLT_LOWEST <= dot n v /\ dot n v <= FLT_MAX) vertices ->
  Forall (fun v => FLT_LOWEST <= dot n v + dot n t
                   /\ dot n v + dot n t <= FLT_MAX) vertices ->
  projection_eq (project (translate t vertices) n)
    (shifted (project vertices n) (dot n t)).
Proof.
  intros NE R R'.
  destruct (project_attained vertices n NE R) as (Amin & Amax).
  destruct (project_least_greatest n vertices)
    as ((L1 & L2 & _) & (G1 & G2 & _)).
  destruct (project_least_greatest n (translate t vertices)) as (L & G).
  rewrite Forall_map in L2, G2.
  rewrite Forall_forall in L2, G2, R'.
  apply Exists_exists in Amin. destruct Amin as (vmin & Imin & Emin).
  apply Exists_exists in Amax. destruct Amax as (vmax & Imax & Emax).
  unfold projection_eq, shifted. cbn [min max]. split.
  - apply (least_of_unique _ _ _ _ L). split; [| split].
    + destruct (R' vmin Imin). lra.
    + unfold translate. rewrite map_map. rewrite Forall_map.
      apply Forall_forall. intros v I. rewrite dot_translate.
      specialize (L2 v I). lra.
    + right. unfold translate. rewrite map_map. rewrite Exists_map.
      apply Exists_exists. exists vmin. split; [exact Imin |].
      rewrite dot_translate. lra.
  - apply (greatest_of_unique _ _ _ _ G). split; [| split].
    + destruct (R' vmax Imax). lra.
    + unfold translate. rewrite map_map. rewrite Forall_map.
      apply Forall_forall. intros v I. rewrite dot_translate.
      specialize (G2 v I). lra.
    + right. unfold translate. rewrite map_map. rewrite Exists_map.
      apply Exists_exists. exists vmax. split; [exact Imax |].
      rewrite dot_translate. lra.
Qed.

(** Over exact arithmetic (no rounding): moving the vertices by [t] moves
    the interval by [n . t], as long as nothing leaves the range of
    [float].  With at least one vertex and every projection, before and
    after the move, between [FLT_LOWEST] and [FLT_MAX], projecting the moved
    vertices gives what lines 85-86 compute by shifting the interval of the
    vertices in place. *)
Theorem project_translate (vertices : list Vec2) (n t : Vec2) :
  vertices <> [] ->
  Forall (fun v => FLT_LOWEST <= dot n v /\ dot n v <= FLT_MAX) vertices ->
  Forall (fun v => FLT_LOWEST <= dot n v + dot n t
                   /\ dot n v + dot n t <= FLT_MAX) vertices ->
  projection_eq (project (translate t vertices) n)
    (shifted (project vertices n) (dot n t)).
Proof. apply project_shift. Qed.

(** ** checkOverlap, further *)

Section ProbeMore.

Variable getNormal : Vec2 -> Vec2.
Variable vec2_default : Vec2.
Variables verticesA verticesB : list Vec2.

Local Abbreviation probe :=
  (fun posA posB =>
     checkOverlap getNormal vec2_default posA posB verticesA verticesB).


Lemma dot_veq (n d d' : Vec2) : d =v d' -> dot n d == dot n d'.
Proof. intros (Hx & Hy). unfold dot. rewrite Hx, Hy. reflexivity. Qed.

Lemma checkOverlap_loop_offset (d d' : Vec2) (rest : list Vec2) :
  d =v d' ->
  forall (vertex1 : Vec2) (m m' : Q) (nrm : Vec2),
    m == m' ->
    overlap_eq
      (checkOverlap_loop getNormal d verticesA verticesB vertex1 rest m nrm)
      (checkOverlap_loop getNormal d' verticesA verticesB vertex1 rest m' nrm).
Proof.
  intros Hd. induction rest as [| vertex2 rest' IH]; intros vertex1 m m' nrm Hm.
  - cbn [checkOverlap_loop overlap_eq depth direction]. auto.
  - cbn [checkOverlap_loop].
    set (n := getNormal (vertex2 -v vertex1)).
    pose proof (dot_veq n d d' Hd) as Hn.
    unfold shifted. cbn [min max]. unfold Qgeb, Qleb, Qltb.
    assert (E1 : Qle_bool (max (project verticesA n))
                   (min (project verticesB n) + dot n d)
                 = Qle_bool (max (project verticesA n))
                     (min (project verticesB n) + dot n d'))
      by (rewrite Hn; reflexivity).
    assert (E2 : Qle_bool (max (project verticesB n) + dot n d)
                   (min (project verticesA n))
                 = Qle_bool (max (project verticesB n) + dot n d')
                     (min (project verticesA n)))
      by (rewrite Hn; reflexivity).
    assert (E3 : Qle_bool m
                   (Qabs (max (project verticesA n)
                          - (min (project verticesB n) + dot n d)))
                 = Qle_bool m'
                     (Qabs (max (project verticesA n)
                            - (min (project verticesB n) + dot n d'))))
      by (rewrite Hn, Hm; reflexivity).
    rewrite E1, E2, E3.
    destruct (Qle_bool _ _ || Qle_bool _ _); [exact I |].
    destruct (negb _).
    + apply IH. rewrite Hn. reflexivity.
    + apply IH. exact Hm.
Qed.

(** The two positions enter the probe only through their difference: two
    pairs of positions with numerically the same offset [posB - posA] get
    the same answer, "no overlap" for both or the same normal and
    numerically the same depth.  Moving both bodies by the same vector is
    the case at hand. *)
Theorem checkOverlap_relative_position (posA posB posA' posB' : Vec2) :
  posB -v posA =v posB' -v posA' ->
  overlap_eq (probe posA posB) (probe posA' posB').
Proof.
  intros H. unfold checkOverlap. cbv zeta.
  apply checkOverlap_loop_offset; [exact H | reflexivity].
Qed.

Lemma checkOverlap_offset (posA posB posA' posB' : Vec2) :
  posB -v posA =v posB' -v posA' ->
  overlap_eq (probe posA posB) (probe posA' posB').
Proof.
  intros H. unfold checkOverlap. cbv zeta.
  apply checkOverlap_loop_offset; [exact H | reflexivity].
Qed.

End ProbeMore.

(** ** Vertex sets without vertices *)

Section EmptyShapes.

Variable getNormal : Vec2 -> Vec2.
Variable vec2_default : Vec2.

Lemma checkOverlap_other_empty (posA posB : Vec2) (vertices : list Vec2) :
  vertices <> [] ->
  max (project vertices (edgeNormal getNormal vec2_default vertices 0))
  <= FLT_MAX
     + dot (edgeNormal getNormal vec2_default vertices 0) (posB -v posA) ->
  checkOverlap getNormal vec2_default posA posB vertices [] = None.
Proof.
  intros NE R. destruct vertices as [| v l]; [contradiction |].
  unfold edgeNormal, prevIndex in R. cbn [Nat.eqb] in R.
  rewrite nth_last_vertex in R.
  change (nth 0 (v :: l) vec2_default) with v in R.
  unfold checkOverlap. cbv zeta. cbn [checkOverlap_loop].
  set (n := getNormal (v -v last (v :: l) vec2_default)) in *.
  assert (G : Qgeb (min (shifted (project [] n) (dot n (posB -v posA))))
                (max (project (v :: l) n)) = true).
  { apply Qgeb_ge. exact R. }
  rewrite G. reflexivity.
Qed.

(** What the code does with a vertex set that has no vertex (it validates
    nothing).  As the probed shape A, the set is reported as overlapping any
    B, with depth [FLT_MAX] and a default-constructed normal.  As the other
    shape B it is reported as not overlapping a non-empty A, as soon as on
    A's first edge normal [n] (the edge from the last vertex to the first)
    projA.max <= FLT_MAX + n . (posB - posA); and then [solveCollision]
    changes nothing, whichever of its two argument lists holds the empty
    set. *)
Theorem empty_vertex_set (posA posB : Vec2) (vertices : list Vec2) :
  checkOverlap getNormal vec2_default posA posB [] vertices
  = Some (mkOverlap FLT_MAX vec2_default)
  /\ (vertices <> [] ->
      max (project vertices (edgeNormal getNormal vec2_default vertices 0))
      <= FLT_MAX
         + dot (edgeNormal getNormal vec2_default vertices 0)
             (posB -v posA) ->
      checkOverlap getNormal vec2_default posA posB vertices [] = None
      /\ forall massInverseA massInverseB boundsA boundsB s,
          solveCollision getNormal vec2_default massInverseA massInverseB
            boundsA boundsB posA posB vertices [] s = s
          /\ solveCollision getNormal vec2_default massInverseB massInverseA
               boundsB boundsA posB posA [] vertices s = s).
Proof.
  split; [reflexivity |]. intros NE R.
  pose proof (checkOverlap_other_empty posA posB vertices NE R) as N.
  split; [exact N |]. intros mA mB bA bB s.
  split; apply solveCollision_miss; auto.
Qed.

End EmptyShapes.

(** ** boundsOverlap, further *)

(** The broad check does not depend on the order of the two boxes, and a box
    overlaps itself exactly when its width and its height are positive. *)
Theorem boundsOverlap_symmetric (boundsA boundsB : Bounds) :
  boundsOverlap boundsB boundsA = boundsOverlap boundsA boundsB
  /\ (boundsOverlap boundsA boundsA = true <->
      x (topLeft boundsA) < x (bottomRight boundsA)
      /\ y (topLeft boundsA) < y (bottomRight boundsA)).
Proof.
  split; [apply boundsOverlap_sym |].
  rewrite boundsOverlap_iff. tauto.
Qed.

(** Growing a box never loses an overlap: when A overlaps B and the box C
    encloses B, A overlaps C. *)
Theorem boundsOverlap_monotone (boundsA boundsB boundsC : Bounds) :
  boundsOverlap boundsA boundsB = true ->
  x (topLeft boundsC) <= x (topLeft boundsB) ->
  y (topLeft boundsC) <= y (topLeft boundsB) ->
  x (bottomRight boundsB) <= x (bottomRight boundsC) ->
  y (bottomRight boundsB) <= y (bottomRight boundsC) ->
  boundsOverlap boundsA boundsC = true.
Proof.
  rewrite !boundsOverlap_iff. intros (H1 & H2 & H3 & H4) C1 C2 C3 C4.
  repeat split; lra.
Qed.

(** ** solveCollision, further *)

Section ResolverMore.

Variable getNormal : Vec2 -> Vec2.
Variable vec2_default : Vec2.
Variables massInverseA massInverseB : Q.
Variables boundsA boundsB : Bounds.
Variables posA posB : Vec2.
Variables verticesA verticesB : list Vec2.

Local Abbreviation solve :=
  (solveCollision getNormal vec2_default massInverseA massInverseB
     boundsA boundsB posA posB verticesA verticesB).
Local Abbreviation probeAB :=
  (checkOverlap getNormal vec2_default posA posB verticesA verticesB).
Local Abbreviation probeBA :=
  (checkOverlap getNormal vec2_default posB posA verticesB verticesA).

(** The impulse reverses the relative velocity along the normal and never
    asks whether the bodies approach: with [n] the selected normal,
    n . (velocityA' - velocityB') = (1 - 2 (n . n)) (n . (velocityA -
    velocityB)), which for a normal of length 1 is the opposite of what it
    was, whatever its sign. *)
Theorem impulse_reverses_normal_velocity (s : Bodies)
    (overlap1 overlap2 : Overlap) :
  0 <= massInverseA -> 0 <= massInverseB ->
  areBothStatic massInverseA massInverseB = false ->
  boundsOverlap boundsA boundsB = true ->
  probeAB = Some overlap1 ->
  probeBA = Some overlap2 ->
  let n := collisionNormal overlap1 overlap2 in
  let s' := solve s in
  dot n (velocityA s' -v velocityB s')
  == (1 - 2 * dot n n) * dot n (velocityA s -v velocityB s)
  /\ (dot n n == 1 ->
      dot n (velocityA s' -v velocityB s')
      == - dot n (velocityA s -v velocityB s)).
Proof.
  intros HA HB HS HO H1 H2 n s'.
  pose proof (guard_divisor_positive _ _ HA HB HS) as P.
  assert (K : dot n (velocityA s' -v velocityB s')
              == (1 - 2 * dot n n) * dot n (velocityA s -v velocityB s)).
  { unfold s'.
    rewrite (solveCollision_hit getNormal vec2_default massInverseA
               massInverseB boundsA boundsB posA posB verticesA verticesB
               s overlap1 overlap2 HS HO H1 H2).
    cbv zeta. fold n. cbn [velocityA velocityB]. vec_components.
    field. lra. }
  split; [exact K |]. intros U. rewrite K, U. ring.
Qed.

(** A second call with the same read-only arguments undoes the velocity
    change of the first: when the first call applied an impulse along a
    normal of length 1, the velocities after the second call are the
    velocities before the first.  (The positional corrections add up, as
    the accumulators do.) *)
Theorem solveCollision_twice (s : Bodies)
    (overlap1 overlap2 : Overlap) :
  0 <= massInverseA -> 0 <= massInverseB ->
  areBothStatic massInverseA massInverseB = false ->
  boundsOverlap boundsA boundsB = true ->
  probeAB = Some overlap1 ->
  probeBA = Some overlap2 ->
  dot (collisionNormal overlap1 overlap2) (collisionNormal overlap1 overlap2)
    == 1 ->
  velocityA (solve (solve s)) =v velocityA s
  /\ velocityB (solve (solve s)) =v velocityB s.
Proof.
  intros HA HB HS HO H1 H2 U.
  pose proof (guard_divisor_positive _ _ HA HB HS) as P.
  rewrite (solveCollision_hit getNormal vec2_default massInverseA
             massInverseB boundsA boundsB posA posB verticesA verticesB
             _ overlap1 overlap2 HS HO H1 H2).
  rewrite (solveCollision_hit getNormal vec2_default massInverseA
             massInverseB boundsA boundsB posA posB verticesA verticesB
             s overlap1 overlap2 HS HO H1 H2).
  cbv zeta. cbn [velocityA velocityB].
  set (n := collisionNormal overlap1 overlap2) in *.
  unfold dot in U. vec_components.
  set (D := x n * (x (velocityA s) - x (velocityB s))
            + y n * (y (velocityA s) - y (velocityB s))).
  repeat split.
  - transitivity (x (velocityA s)
                  + 4 * x n * massInverseA * D
                    * (x n * x n + y n * y n - 1)
                    / (massInverseA + massInverseB)).
    + unfold D. field. lra.
    + rewrite U. field. lra.
  - transitivity (y (velocityA s)
                  + 4 * y n * massInverseA * D
                    * (x n * x n + y n * y n - 1)
                    / (massInverseA + massInverseB)).
    + unfold D. field. lra.
    + rewrite U. field. lra.
  - transitivity (x (velocityB s)
                  - 4 * x n * massInverseB * D
                    * (x n * x n + y n * y n - 1)
                    / (massInverseA + massInverseB)).
    + unfold D. field. lra.
    + rewrite U. field. lra.
  - transitivity (y (velocityB s)
                  - 4 * y n * massInverseB * D
                    * (x n * x n + y n * y n - 1)
                    / (massInverseA + massInverseB)).
    + unfold D. field. lra.
    + rewrite U. field. lra.
Qed.

(** Over exact arithmetic (no rounding, no overflow): the impulse acts
    along the normal only.  On the path that applies it,
    with [n] the selected normal: the component of each velocity along any
    direction [t] perpendicular to [n] is kept; and when the relative
    velocity has no component along [n], both velocities are kept. *)
Theorem impulse_along_normal (s : Bodies)
    (overlap1 overlap2 : Overlap) :
  areBothStatic massInverseA massInverseB = false ->
  boundsOverlap boundsA boundsB = true ->
  probeAB = Some overlap1 ->
  probeBA = Some overlap2 ->
  let n := collisionNormal overlap1 overlap2 in
  let s' := solve s in
  (forall t, dot t n == 0 ->
     dot t (velocityA s') == dot t (velocityA s)
     /\ dot t (velocityB s') == dot t (velocityB s))
  /\ (dot n (velocityA s -v velocityB s) == 0 ->
      velocityA s' =v velocityA s /\ velocityB s' =v velocityB s).
Proof.
  intros HS HO H1 H2 n s'. unfold s'.
  rewrite (solveCollision_hit getNormal vec2_default massInverseA
             massInverseB boundsA boundsB posA posB verticesA verticesB
             s overlap1 overlap2 HS HO H1 H2).
  cbv zeta. fold n. cbn [velocityA velocityB]. split.
  - intros t T.
    set (j := - dot n (velocityA s -v velocityB s) * 2
              / (massInverseA + massInverseB)).
    unfold dot in T. vec_components. split.
    + transitivity (x t * x (velocityA s) + y t * y (velocityA s)
                    + j * massInverseA * (x t * x n + y t * y n));
        [ring | rewrite T; ring].
    + transitivity (x t * x (velocityB s) + y t * y (velocityB s)
                    - j * massInverseB * (x t * x n + y t * y n));
        [ring | rewrite T; ring].
  - intros Z. vec_components. unfold dot, vsub in Z. cbn [x y] in Z.
    repeat split; rewrite Z; unfold Qdiv; ring.
Qed.

End ResolverMore.

Section RelativePosition.

Variable getNormal : Vec2 -> Vec2.
Variable vec2_default : Vec2.
Variables massInverseA massInverseB : Q.
Variables boundsA boundsB : Bounds.
Variables verticesA verticesB : list Vec2.

Lemma Qltb_comp (a a' b b' : Q) :
  a == a' -> b == b' -> Qltb a b = Qltb a' b'.
Proof. intros Ha Hb. unfold Qltb. rewrite Ha, Hb. reflexivity. Qed.

(** With the bounds, the vertex sets and the inverse masses fixed, the two
    positions enter [solveCollision] only through their difference: two
    pairs of positions with numerically the same offset [posB - posA] leave
    numerically the same velocities and accumulators. *)
Theorem solveCollision_relative_position (posA posB posA' posB' : Vec2)
    (s : Bodies) :
  posB -v posA =v posB' -v posA' ->
  bodies_eq
    (solveCollision getNormal vec2_default massInverseA massInverseB
       boundsA boundsB posA posB verticesA verticesB s)
    (solveCollision getNormal vec2_default massInverseA massInverseB
       boundsA boundsB posA' posB' verticesA verticesB s).
Proof.
  intros H.
  assert (H' : posA -v posB =v posA' -v posB').
  { revert H. vec_components. intros (Hx & Hy). split; lra. }
  pose proof (checkOverlap_offset getNormal vec2_default verticesA verticesB
                posA posB posA' posB' H) as E1.
  pose proof (checkOverlap_offset getNormal vec2_default verticesB verticesA
                posB posA posB' posA' H') as E2.
  destruct (areBothStatic massInverseA massInverseB) eqn:HS.
  { rewrite !solveCollision_miss by auto. apply bodies_eq_refl. }
  destruct (boundsOverlap boundsA boundsB) eqn:HO.
  2:{ rewrite !solveCollision_miss by auto. apply bodies_eq_refl. }
  destruct (checkOverlap getNormal vec2_default posA posB verticesA
              verticesB) as [o1 |] eqn:P1;
    destruct (checkOverlap getNormal vec2_default posA' posB' verticesA
                verticesB) as [o1' |] eqn:P1';
    cbn [overlap_eq] in E1; try contradiction.
  2:{ rewrite !solveCollision_miss by auto. apply bodies_eq_refl. }
  destruct (checkOverlap getNormal vec2_default posB posA verticesB
              verticesA) as [o2 |] eqn:P2;
    destruct (checkOverlap getNormal vec2_default posB' posA' verticesB
                verticesA) as [o2' |] eqn:P2';
    cbn [overlap_eq] in E2; try contradiction.
  2:{ rewrite !solveCollision_miss by auto. apply bodies_eq_refl. }
  destruct E1 as (D1 & N1). destruct E2 as (D2 & N2).
  rewrite (solveCollision_hit getNormal vec2_default massInverseA
             massInverseB boundsA boundsB posA posB verticesA verticesB
             s o1 o2 HS HO P1 P2).
  rewrite (solveCollision_hit getNormal vec2_default massInverseA
             massInverseB boundsA boundsB posA' posB' verticesA verticesB
             s o1' o2' HS HO P1' P2').
  cbv zeta. unfold bodies_eq.
  cbn [velocityA velocityB overlapAccumulatorA overlapAccumulatorB].
  rewrite !Qgeb_negb_Qltb. unfold collisionDepth, collisionNormal, std_min.
  rewrite <- (Qltb_comp _ _ _ _ D1 D2), <- (Qltb_comp _ _ _ _ D2 D1).
  rewrite <- N1, <- N2.
  destruct (Qltb (depth o1) (depth o2)), (Qltb (depth o2) (depth o1));
    cbn [negb]; vec_components;
    repeat split; rewrite <- ?D1, <- ?D2; reflexivity.
Qed.

End RelativePosition.

(** ** The other shape of a probe *)

Section ProbeEquiv.

Variable getNormal : Vec2 -> Vec2.
Variable vec2_default : Vec2.
Variable verticesA : list Vec2.

(** B, its offset and the running minimum enter a turn of the loop only
    through B's shifted interval on the turn's axis and through numeric
    comparisons. *)
Lemma checkOverlap_loop_equiv (d d' : Vec2) (verticesB verticesB' : list Vec2)
    (rest : list Vec2) :
  forall (vertex1 : Vec2) (m m' : Q) (nrm : Vec2),
    Forall (fun n =>
              projection_eq (shifted (project verticesB n) (dot n d))
                (shifted (project verticesB' n) (dot n d')))
      (walkNormals getNormal vertex1 rest) ->
    m == m' ->
    overlap_eq
      (checkOverlap_loop getNormal d verticesA verticesB vertex1 rest m nrm)
      (checkOverlap_loop getNormal d' verticesA verticesB' vertex1 rest m'
         nrm).
Proof.
  induction rest as [| vertex2 rest' IH]; intros vertex1 m m' nrm F Hm.
  - cbn [checkOverlap_loop overlap_eq depth direction]. auto.
  - cbn [walkNormals] in F. inversion F as [| ? ? (Hmin & Hmax) F']; subst.
    cbn [checkOverlap_loop].
    set (n := getNormal (vertex2 -v vertex1)) in *.
    unfold shifted in *. cbn [min max] in *. unfold Qgeb, Qleb, Qltb.
    assert (E1 : Qle_bool (max (project verticesA n))
                   (min (project verticesB n) + dot n d)
                 = Qle_bool (max (project verticesA n))
                     (min (project verticesB' n) + dot n d'))
      by (rewrite Hmin; reflexivity).
    assert (E2 : Qle_bool (max (project verticesB n) + dot n d)
                   (min (project verticesA n))
                 = Qle_bool (max (project verticesB' n) + dot n d')
                     (min (project verticesA n)))
      by (rewrite Hmax; reflexivity).
    assert (E3 : Qle_bool m
                   (Qabs (max (project verticesA n)
                          - (min (project verticesB n) + dot n d)))
                 = Qle_bool m'
                     (Qabs (max (project verticesA n)
                            - (min (project verticesB' n) + dot n d'))))
      by (rewrite Hmin, Hm; reflexivity).
    rewrite E1, E2, E3.
    destruct (Qle_bool _ _ || Qle_bool _ _); [exact I |].
    destruct (negb _).
    + apply IH; [exact F' |]. rewrite Hmin. reflexivity.
    + apply IH; assumption.
Qed.

(** The order of the vertices of the other shape does not matter to a
    probe: against two vertex sets B that are permutations of one another
    it answers the same, "no overlap" for both or the same normal and
    numerically the same depth. *)
Theorem checkOverlap_other_permutation (posA posB : Vec2)
    (verticesB verticesB' : list Vec2) :
  Permutation verticesB verticesB' ->
  overlap_eq
    (checkOverlap getNormal vec2_default posA posB verticesA verticesB)
    (checkOverlap getNormal vec2_default posA posB verticesA verticesB').
Proof.
  intros P. unfold checkOverlap. cbv zeta.
  apply checkOverlap_loop_equiv; [| reflexivity].
  apply Forall_forall. intros n _.
  destruct (project_least_greatest n verticesB)
    as ((A1 & A2 & A3) & (B1 & B2 & B3)).
  destruct (project_least_greatest n verticesB') as (L & G).
  assert (PM : Permutation (map (dot n) verticesB) (map (dot n) verticesB'))
    by (apply Permutation_map; exact P).
  assert (Emin : min (project verticesB n) == min (project verticesB' n)).
  { apply (least_of_unique FLT_MAX (map (dot n) verticesB')); [| exact L].
    split; [exact A1 |]. split; [rewrite <- PM; exact A2 |].
    destruct A3 as [H | H]; [left; exact H |]. right.
    rewrite <- PM. exact H. }
  assert (Emax : max (project verticesB n) == max (project verticesB' n)).
  { apply (greatest_of_unique FLT_LOWEST (map (dot n) verticesB'));
      [| exact G].
    split; [exact B1 |]. split; [rewrite <- PM; exact B2 |].
    destruct B3 as [H | H]; [left; exact H |]. right.
    rewrite <- PM. exact H. }
  unfold projection_eq, shifted. cbn [min max].
  rewrite Emin, Emax. split; reflexivity.
Qed.

(** Over exact arithmetic (no rounding): shifting B's interval is probing B
    where it stands.  When B has a
    vertex and, on every edge normal of A, the projections of B's vertices
    stay within the range of [float] before and after the shift by
    n . (posB - posA), the probe answers as it does for A and B both at the
    origin with B's vertices moved by posB - posA. *)
Theorem checkOverlap_world_space (posA posB : Vec2) (verticesB : list Vec2) :
  verticesB <> [] ->
  Forall
    (fun n =>
       Forall (fun v => FLT_LOWEST <= dot n v /\ dot n v <= FLT_MAX)
         verticesB
       /\ Forall (fun v => FLT_LOWEST <= dot n v + dot n (posB -v posA)
                           /\ dot n v + dot n (posB -v posA) <= FLT_MAX)
            verticesB)
    (edgeNormals getNormal vec2_default verticesA) ->
  overlap_eq
    (checkOverlap getNormal vec2_default posA posB verticesA verticesB)
    (checkOverlap getNormal vec2_default vzero vzero verticesA
       (translate (posB -v posA) verticesB)).
Proof.
  intros NE R. unfold checkOverlap. cbv zeta.
  apply checkOverlap_loop_equiv; [| reflexivity].
  rewrite walkNormals_edgeNormals.
  eapply Forall_impl; [| exact R]. cbv beta. intros n (R1 & R2).
  destruct (project_shift verticesB n (posB -v posA) NE R1 R2) as (Emin & Emax).
  unfold shifted in *. cbn [min max] in *.
  unfold projection_eq. cbn [min max]. rewrite Emin, Emax.
  vec_components. split; ring.
Qed.

End ProbeEquiv.

(** ** The further properties at work on the two unit squares *)

Ltac compute_bounds :=
  repeat (first [apply Forall_nil | apply Forall_cons | split]);
  vm_compute; discriminate.

(** The unit square read backwards has the same interval on the x-axis. *)
Lemma project_permutation_witness :
  Permutation unitSquare (rev unitSquare)
  /\ projection_eq (project unitSquare (mkVec2 1 0))
       (project (rev unitSquare) (mkVec2 1 0)).
Proof.
  assert (P : Permutation unitSquare (rev unitSquare))
    by apply Permutation_rev.
  split; [exact P |]. apply (project_permutation _ _ _ P).
Defined.

(** The unit square moved by (1/2, 0): its interval on the x-axis moves
    from [-1/2, 1/2] to [0, 1]. *)
Lemma project_translate_witness :
  unitSquare <> []
  /\ projection_eq (project (translate centreB unitSquare) (mkVec2 1 0))
       (mkProjection 0 1).
Proof.
  assert (NE : unitSquare <> []) by discriminate.
  split; [exact NE |].
  destruct (project_translate unitSquare (mkVec2 1 0) centreB NE)
    as (Emin & Emax); [compute_bounds | compute_bounds |].
  split; [rewrite Emin | rewrite Emax]; vm_compute; reflexivity.
Defined.


(** Both unit squares moved by (1, 1): the probe answers the same. *)
Lemma checkOverlap_relative_position_witness :
  centreB -v centreA =v mkVec2 (3 # 2) 1 -v mkVec2 1 1
  /\ overlap_eq (squaresProbeAB perp_cw vzero)
       (checkOverlap perp_cw vzero (mkVec2 1 1) (mkVec2 (3 # 2) 1)
          unitSquare unitSquare).
Proof.
  assert (H : centreB -v centreA =v mkVec2 (3 # 2) 1 -v mkVec2 1 1)
    by (vm_compute; split; reflexivity).
  split; [exact H |].
  apply (checkOverlap_relative_position perp_cw vzero unitSquare unitSquare
           centreA centreB (mkVec2 1 1) (mkVec2 (3 # 2) 1) H).
Defined.

(** The unit square against a shape without vertices: no overlap. *)
Lemma empty_vertex_set_witness :
  unitSquare <> []
  /\ checkOverlap perp_cw vzero centreA centreB unitSquare [] = None.
Proof.
  assert (NE : unitSquare <> []) by discriminate.
  split; [exact NE |].
  apply (proj2 (empty_vertex_set perp_cw vzero centreA centreB unitSquare)
           NE).
  vm_compute. discriminate.
Defined.

(** The bounds of the square at (1/2, 0) grown by 1/2 on every side still
    overlap the bounds of the square at the origin. *)
Lemma boundsOverlap_monotone_witness :
  boundsOverlap (squareBounds centreA (1 # 2))
    (squareBounds centreB (1 # 2)) = true
  /\ boundsOverlap (squareBounds centreA (1 # 2)) (squareBounds centreB 1)
     = true.
Proof.
  assert (H : boundsOverlap (squareBounds centreA (1 # 2))
                (squareBounds centreB (1 # 2)) = true) by reflexivity.
  split; [exact H |].
  apply (boundsOverlap_monotone _ _ (squareBounds centreB 1) H);
    vm_compute; discriminate.
Defined.

(** Inverse masses 1 and 3, A approaching at speed 1 along the normal
    (-1, 0): the relative velocity along the normal goes from -1 to 1. *)
Lemma impulse_reverses_normal_velocity_witness :
  dot (collisionNormal squaresOverlapAB squaresOverlapBA)
    (velocityA (squaresResolved perp_cw vzero 1 3 approaching)
     -v velocityB (squaresResolved perp_cw vzero 1 3 approaching))
  == 1
  /\ dot (collisionNormal squaresOverlapAB squaresOverlapBA)
       (velocityA approaching -v velocityB approaching)
     == - (1).
Proof.
  assert (HA : 0 <= 1) by (unfold Qle; simpl; lia).
  assert (HB : 0 <= 3) by (unfold Qle; simpl; lia).
  assert (H1 : squaresProbeAB perp_cw vzero = Some squaresOverlapAB)
    by (vm_compute; reflexivity).
  assert (H2 : squaresProbeBA perp_cw vzero = Some squaresOverlapBA)
    by (vm_compute; reflexivity).
  destruct (impulse_reverses_normal_velocity perp_cw vzero 1 3
              (squareBounds centreA (1 # 2)) (squareBounds centreB (1 # 2))
              centreA centreB unitSquare unitSquare approaching
              squaresOverlapAB squaresOverlapBA HA HB eq_refl eq_refl H1 H2)
    as (_ & K).
  split; [| vm_compute; reflexivity].
  unfold squaresResolved. rewrite K; vm_compute; reflexivity.
Defined.

(** The same call made twice: A moves at (1, 0) again, B is at rest. *)
Lemma solveCollision_twice_witness :
  velocityA
    (squaresResolved perp_cw vzero 1 3
       (squaresResolved perp_cw vzero 1 3 approaching))
  =v mkVec2 1 0
  /\ velocityB
       (squaresResolved perp_cw vzero 1 3
          (squaresResolved perp_cw vzero 1 3 approaching))
     =v vzero.
Proof.
  assert (HA : 0 <= 1) by (unfold Qle; simpl; lia).
  assert (HB : 0 <= 3) by (unfold Qle; simpl; lia).
  assert (H1 : squaresProbeAB perp_cw vzero = Some squaresOverlapAB)
    by (vm_compute; reflexivity).
  assert (H2 : squaresProbeBA perp_cw vzero = Some squaresOverlapBA)
    by (vm_compute; reflexivity).
  apply (solveCollision_twice perp_cw vzero 1 3
           (squareBounds centreA (1 # 2)) (squareBounds centreB (1 # 2))
           centreA centreB unitSquare unitSquare approaching
           squaresOverlapAB squaresOverlapBA HA HB eq_refl eq_refl H1 H2).
  vm_compute. reflexivity.
Defined.

(** Body A sliding past B at (0, 1), across the normal (-1, 0): both
    velocities are kept. *)
Lemma impulse_along_normal_witness :
  dot (collisionNormal squaresOverlapAB squaresOverlapBA)
    (mkVec2 0 1 -v vzero) == 0
  /\ velocityA
       (squaresResolved perp_cw vzero 1 3
          (mkBodies (mkVec2 0 1) vzero vzero vzero))
     =v mkVec2 0 1
  /\ velocityB
       (squaresResolved perp_cw vzero 1 3
          (mkBodies (mkVec2 0 1) vzero vzero vzero))
     =v vzero.
Proof.
  assert (Z : dot (collisionNormal squaresOverlapAB squaresOverlapBA)
                (mkVec2 0 1 -v vzero) == 0) by (vm_compute; reflexivity).
  assert (H1 : squaresProbeAB perp_cw vzero = Some squaresOverlapAB)
    by (vm_compute; reflexivity).
  assert (H2 : squaresProbeBA perp_cw vzero = Some squaresOverlapBA)
    by (vm_compute; reflexivity).
  split; [exact Z |].
  apply (proj2 (impulse_along_normal perp_cw vzero 1 3
                  (squareBounds centreA (1 # 2))
                  (squareBounds centreB (1 # 2))
                  centreA centreB unitSquare unitSquare
                  (mkBodies (mkVec2 0 1) vzero vzero vzero)
                  squaresOverlapAB squaresOverlapBA eq_refl eq_refl H1 H2)
           Z).
Defined.

(** Both unit squares moved by (1, 1), bounds as given: the call with
    inverse masses 1 and 3 leaves the same state. *)
Lemma solveCollision_relative_position_witness :
  centreB -v centreA =v mkVec2 (3 # 2) 1 -v mkVec2 1 1
  /\ bodies_eq
       (squaresResolved perp_cw vzero 1 3 approaching)
       (solveCollision perp_cw vzero 1 3
          (squareBounds centreA (1 # 2)) (squareBounds centreB (1 # 2))
          (mkVec2 1 1) (mkVec2 (3 # 2) 1) unitSquare unitSquare approaching).
Proof.
  assert (H : centreB -v centreA =v mkVec2 (3 # 2) 1 -v mkVec2 1 1)
    by (vm_compute; split; reflexivity).
  split; [exact H |].
  apply (solveCollision_relative_position perp_cw vzero 1 3
           (squareBounds centreA (1 # 2)) (squareBounds centreB (1 # 2))
           unitSquare unitSquare centreA centreB (mkVec2 1 1)
           (mkVec2 (3 # 2) 1) approaching H).
Defined.

(** Probing against the unit square read backwards. *)
Lemma checkOverlap_other_permutation_witness :
  Permutation unitSquare (rev unitSquare)
  /\ overlap_eq (squaresProbeAB perp_cw vzero)
       (checkOverlap perp_cw vzero centreA centreB unitSquare
          (rev unitSquare)).
Proof.
  assert (P : Permutation unitSquare (rev unitSquare))
    by apply Permutation_rev.
  split; [exact P |].
  apply (checkOverlap_other_permutation perp_cw vzero unitSquare
           centreA centreB unitSquare (rev unitSquare) P).
Defined.

(** Probing the unit square B at (1/2, 0) is probing, from the origin, the
    square with corners (0, -1/2) and (1, 1/2). *)
Lemma checkOverlap_world_space_witness :
  unitSquare <> []
  /\ overlap_eq (squaresProbeAB perp_cw vzero)
       (checkOverlap perp_cw vzero vzero vzero unitSquare
          (translate (centreB -v centreA) unitSquare)).
Proof.
  assert (NE : unitSquare <> []) by discriminate.
  split; [exact NE |].
  apply (checkOverlap_world_space perp_cw vzero unitSquare centreA centreB
           unitSquare NE).
  compute_bounds.
Defined.

(** * The two readings of the arithmetic *)

(** ** The exact reading of the generic code is the code above *)

Lemma of_to_vec (v : Vec2) : of_vec (to_vec v) = v.
Proof. destruct v. reflexivity. Qed.

Lemma boundsOverlap_exact (boundsA boundsB : Bounds) :
  Generic.boundsOverlap exact (to_bounds boundsA) (to_bounds boundsB)
  = boundsOverlap boundsA boundsB.
Proof. reflexivity. Qed.

Lemma project_fold_exact (n : Vec2) (vertices : list Vec2) :
  forall acc : Projection,
    fold_left (Generic.project_step exact (to_vec n)) (map to_vec vertices)
      (to_projection acc)
    = to_projection (fold_left (project_step n) vertices acc).
Proof.
  induction vertices as [| v l IH]; intros acc; [reflexivity |].
  cbn [map fold_left]. rewrite <- IH. reflexivity.
Qed.

Lemma project_exact (vertices : list Vec2) (n : Vec2) :
  Generic.project exact (map to_vec vertices) (to_vec n)
  = to_projection (project vertices n).
Proof.
  apply (project_fold_exact n vertices (mkProjection FLT_MAX FLT_LOWEST)).
Qed.

Section ExactReading.

Variable getNormal : Vec2 -> Vec2.
Variable vec2_default : Vec2.

Local Abbreviation getNormal' := (fun e => to_vec (getNormal (of_vec e))).

Lemma checkOverlap_loop_exact (d : Vec2) (verticesA verticesB : list Vec2)
    (rest : list Vec2) :
  forall (vertex1 : Vec2) (m : Q) (nrm : Vec2),
    Generic.checkOverlap_loop exact getNormal' (to_vec d)
      (map to_vec verticesA) (map to_vec verticesB) (to_vec vertex1)
      (map to_vec rest) m (to_vec nrm)
    = option_map to_overlap
        (checkOverlap_loop getNormal d verticesA verticesB vertex1 rest m
           nrm).
Proof.
  induction rest as [| vertex2 rest' IH]; intros vertex1 m nrm;
    [reflexivity |].
  cbn [map Generic.checkOverlap_loop checkOverlap_loop].
  change (Generic.vsub exact (to_vec vertex2) (to_vec vertex1))
    with (to_vec (vertex2 -v vertex1)).
  rewrite of_to_vec.
  set (n := getNormal (vertex2 -v vertex1)).
  rewrite !project_exact.
  change (Generic.dot exact (to_vec n) (to_vec d)) with (dot n d).
  cbn [Generic.min Generic.max to_projection].
  change (Generic.fleb exact) with Qle_bool.
  change (Generic.fltb exact) with Qltb.
  change (Generic.fadd exact) with Qplus.
  change (Generic.fsub exact) with Qminus.
  change (Generic.fabs exact) with Qabs.
  unfold shifted, Qgeb, Qleb. cbn [min max].
  destruct (Qle_bool _ _ || Qle_bool _ _); [reflexivity |].
  destruct (Qltb _ m); apply IH.
Qed.

Lemma last_to_vec (l : list Vec2) (d : Vec2) :
  last (map to_vec l) (to_vec d) = to_vec (last l d).
Proof.
  induction l as [| a [| b l'] IH]; try reflexivity.
  change (last (a :: b :: l') d) with (last (b :: l') d).
  rewrite <- IH. reflexivity.
Qed.

Lemma checkOverlap_exact (posA posB : Vec2)
    (verticesA verticesB : list Vec2) :
  Generic.checkOverlap exact getNormal' (to_vec vec2_default)
    (to_vec posA) (to_vec posB) (map to_vec verticesA)
    (map to_vec verticesB)
  = option_map to_overlap
      (checkOverlap getNormal vec2_default posA posB verticesA verticesB).
Proof.
  unfold Generic.checkOverlap, checkOverlap. cbv zeta.
  rewrite last_to_vec.
  change (Generic.vsub exact (to_vec posB) (to_vec posA))
    with (to_vec (posB -v posA)).
  apply checkOverlap_loop_exact.
Qed.

(** The generic [solveCollision], read on the rationals, is the
    [solveCollision] the claims are proved about. *)
Lemma solveCollision_exact (massInverseA massInverseB : Q)
    (boundsA boundsB : Bounds) (posA posB : Vec2)
    (verticesA verticesB : list Vec2) (s : Bodies) :
  Generic.solveCollision exact getNormal' (to_vec vec2_default)
    massInverseA massInverseB (to_bounds boundsA) (to_bounds boundsB)
    (to_vec posA) (to_vec posB) (map to_vec verticesA)
    (map to_vec verticesB) (to_bodies s)
  = to_bodies
      (solveCollision getNormal vec2_default massInverseA massInverseB
         boundsA boundsB posA posB verticesA verticesB s).
Proof.
  unfold Generic.solveCollision, solveCollision.
  rewrite boundsOverlap_exact, !checkOverlap_exact.
  change (Generic.areBothStatic exact massInverseA massInverseB)
    with (areBothStatic massInverseA massInverseB).
  destruct (areBothStatic massInverseA massInverseB
            || negb (boundsOverlap boundsA boundsB)); [reflexivity |].
  destruct (checkOverlap getNormal vec2_default posA posB verticesA
              verticesB) as [overlap1 |]; [| reflexivity].
  destruct (checkOverlap getNormal vec2_default posB posA verticesB
              verticesA) as [overlap2 |]; [| reflexivity].
  cbn [option_map]. cbv zeta.
  cbn [to_overlap Generic.depth Generic.direction].
  change (Generic.fltb exact) with Qltb.
  change (Generic.fleb exact (depth overlap2) (depth overlap1))
    with (Qgeb (depth overlap1) (depth overlap2)).
  unfold Generic.std_min, std_min.
  change (Generic.fltb exact) with Qltb.
  destruct (Qltb (depth overlap1) (depth overlap2)),
    (Qltb (depth overlap2) (depth overlap1)),
    (Qgeb (depth overlap1) (depth overlap2)); reflexivity.
Qed.

End ExactReading.

(** * The claims that rounding or the unset normal decide *)

(** ** The probe on two huge squares, in binary32 *)

(** C1.  The code at the failing input, read in binary32: two coincident
    squares of half side 2^127.  Every edge of A overflows, no penetration
    compares below [numeric_limits<float>::max()], line 97 is never reached,
    and the probe reports an overlap made of the values the loop started
    from: depth [max()] and the default-constructed [normal], whatever that
    vector holds; no edge normal of A is returned.  This with either quarter
    turn as [getNormal]. *)
Theorem checkOverlap_unset_normal
    (vec2_default : Generic.Vec2 (F := SpecFloat.spec_float)) :
  Generic.checkOverlap binary32 (Generic.perp_cw binary32) vec2_default
    (fvec f0 f0) (fvec f0 f0) (fsquare (b32 1 127)) (fsquare (b32 1 127))
  = Some (Generic.mkOverlap (Generic.fmax binary32) vec2_default)
  /\ Generic.checkOverlap binary32 (Generic.perp_ccw binary32) vec2_default
       (fvec f0 f0) (fvec f0 f0) (fsquare (b32 1 127)) (fsquare (b32 1 127))
     = Some (Generic.mkOverlap (Generic.fmax binary32) vec2_default).
Proof. split; vm_compute; reflexivity. Qed.

(** ** The positional correction *)



Section Correction.

Variable getNormal : Vec2 -> Vec2.
Variable vec2_default : Vec2.
Variables massInverseA massInverseB : Q.
Variables boundsA boundsB : Bounds.
Variables posA posB : Vec2.
Variables verticesA verticesB : list Vec2.

Local Abbreviation solve :=
  (solveCollision getNormal vec2_default massInverseA massInverseB
     boundsA boundsB posA posB verticesA verticesB).
Local Abbreviation probeAB :=
  (checkOverlap getNormal vec2_default posA posB verticesA verticesB).
Local Abbreviation probeBA :=
  (checkOverlap getNormal vec2_default posB posA verticesB verticesA).


End Correction.




(** C7 fails as stated: in binary32, on the unit squares with inverse
    masses 1 and 3, one call contributes (0.375, 0) to body B's accumulator.
    Starting from an accumulator of (8388608, 0), each call's addition
    rounds back to 8388608, so after two calls the accumulator is
    (8388608, 0), while its initial value plus the sum of the two
    contributions is (8388609, 0). *)
Lemma two_calls_counterexample :
  ~ two_calls_add_up binary32 (Generic.perp_cw binary32) (fvec f0 f0)
      (b32 1 0) (b32 3 0)
      (fsquareBounds f0 f0 (b32 1 (-1)))
      (fsquareBounds (b32 1 (-1)) f0 (b32 1 (-1)))
      (fvec f0 f0) (fvec (b32 1 (-1)) f0)
      (fsquare (b32 1 (-1))) (fsquare (b32 1 (-1))) accumulatedB
  /\ Generic.overlapAccumulatorB
       (fsquaresCall (Generic.perp_cw binary32) (b32 1 0) (b32 3 0)
          (fsquaresCall (Generic.perp_cw binary32) (b32 1 0) (b32 3 0)
             accumulatedB))
     = fvec (b32 8388608 0) f0
  /\ Generic.overlapAccumulatorB
       (fsquaresCall (Generic.perp_cw binary32) (b32 1 0) (b32 3 0) frest)
     = fvec (b32 3 (-3)) f0
  /\ SpecFloat.SFadd 24 128 (b32 8388608 0)
       (SpecFloat.SFadd 24 128 (b32 3 (-3)) (b32 3 (-3)))
     = b32 8388609 0.
Proof.
  split; [| repeat split; vm_compute; reflexivity].
  intros H. vm_compute in H. discriminate H.
Qed.

